(** * Heartbeat monitor: validator, grouper and gap detector

    A shallow embedding of [src/validator.ts], [src/analyzer.ts] and
    [detectMissedHeartbeats] of [src/main.ts], with the properties of the
    specification proved about it.

    Conventions of the embedding.
    - A JavaScript string is the list of its UTF-16 code units.
    - A JavaScript number that holds a time value, a number of seconds or a
      count is an integer ([Z]); the two numbers of a configuration are
      integers, and a fractional interval is outside the embedding.  The
      code computes in doubles: the threshold and the gap between two
      records are rounded to the nearest double ([round_double]), which
      changes an integer above 2^53; where a sum or a difference is left
      exact, a lemma shows that rounding it makes no difference.
    - A [Date] that is not "Invalid Date" is its time value, the number of
      milliseconds since the epoch, between [-max_time] and [max_time].
    - An exception is an explicit [Throws] result.
    - [Date.parse], whose result outside the ISO format is left to the
      engine, is a parameter of the validator. *)

From Stdlib Require Import ZArith List Ascii String Lia.
From stdpp Require Import base tactics option list sorting.

Local Open Scope Z_scope.

(** ** JavaScript strings *)

Abbreviation jsstring := (list N).

(** The code units of an ASCII literal. *)
Definition str (s : string) : jsstring :=
  map N_of_ascii (list_ascii_of_string s).

(** WhiteSpace and LineTerminator code units, the ones [String.prototype.trim]
    strips (ECMA-262, 12.2 and 12.3). *)
Definition is_white_space (c : N) : bool :=
  ((c =? 9) || (c =? 10) || (c =? 11) || (c =? 12) || (c =? 13) || (c =? 32)
   || (c =? 160) || (c =? 5760)
   || ((8192 <=? c) && (c <=? 8202))
   || (c =? 8232) || (c =? 8233) || (c =? 8239) || (c =? 8287)
   || (c =? 12288) || (c =? 65279))%N.

Fixpoint trimStart (s : jsstring) : jsstring :=
  match s with
  | c :: s' => if is_white_space c then trimStart s' else s
  | [] => []
  end.

Definition trimEnd (s : jsstring) : jsstring := rev (trimStart (rev s)).

Definition trim (s : jsstring) : jsstring := trimEnd (trimStart s).

(** ** Completions: a value or a thrown exception *)

Inductive exception := RangeError.

Inductive completion (A : Type) :=
  | Normal (a : A)
  | Throws (e : exception).
Arguments Normal {A} a.
Arguments Throws {A} e.

Definition bind {A B} (c : completion A) (k : A -> completion B) : completion B :=
  match c with
  | Normal a => k a
  | Throws e => Throws e
  end.

Notation "'let*' x := c 'in' k" := (bind c (fun x => k))
  (at level 10, x name, c at level 100, k at level 200).

(** ** Numbers

    The double nearest to the integer [x], a tie going to the even
    significand (ECMA-262, 6.1.6.1).  An integer of 53 bits or fewer is a
    double; a longer one keeps its 53 leading bits, [ulp] being the weight of
    the last of them.  The exponent is not bounded here: beyond 2^1024, where
    the engine has [Infinity], the result is the finite number of that size.
    The code compares such a number with a gap between two dates and clips
    it to the range of [Date], which come out the same for both. *)
Definition round_double (x : Z) : Z :=
  let k := Z.log2 (Z.abs x) - 52 in
  if k <=? 0 then x
  else
    let ulp := 2 ^ k in
    let q := x / ulp in
    let r := x mod ulp in
    if 2 * r <? ulp then q * ulp
    else if ulp <? 2 * r then (q + 1) * ulp
    else if Z.even q then q * ulp
    else (q + 1) * ulp.

(** ** Dates

    The built-in operations on dates the program calls, after ECMA-262. *)

(** The largest time value of a [Date], 8.64e15 ms (ECMA-262, 21.4.1.1). *)
Definition max_time : Z := 8640000000000000.

Definition valid_time (t : Z) : Prop := - max_time <= t <= max_time.

Definition valid_timeb (t : Z) : bool := (- max_time <=? t) && (t <=? max_time).

(** [TimeClip]: [None] stands for NaN, the time value of an invalid date. *)
Definition TimeClip (t : Z) : option Z :=
  if valid_timeb t then Some t else None.

Definition msPerDay : Z := 86400000.

(** Year, month (1 to 12) and day of the month (1 to 31) of a day number,
    in the proleptic Gregorian calendar; day 0 is 1970-01-01. *)
Definition civil_from_days (day : Z) : Z * Z * Z :=
  let z := day + 719468 in
  let era := z / 146097 in
  let doe := z - era * 146097 in
  let yoe := (doe - doe / 1460 + doe / 36524 - doe / 146096) / 365 in
  let doy := doe - (365 * yoe + yoe / 4 - yoe / 100) in
  let mp := (5 * doy + 2) / 153 in
  let d := doy - (153 * mp + 2) / 5 + 1 in
  let m := if mp <? 10 then mp + 3 else mp - 9 in
  let y := yoe + era * 400 + (if m <=? 2 then 1 else 0) in
  (y, m, d).

(** The inverse: the day number of a calendar date. *)
Definition days_from_civil (y m d : Z) : Z :=
  let y' := if m <=? 2 then y - 1 else y in
  let era := y' / 400 in
  let yoe := y' - era * 400 in
  let mp := if 2 <? m then m - 3 else m + 9 in
  let doy := (153 * mp + 2) / 5 + d - 1 in
  let doe := yoe * 365 + yoe / 4 - yoe / 100 + doy in
  era * 146097 + doe - 719468.

Definition digit (n : Z) : N := (48 + Z.to_N (n mod 10))%N.

(** The [w] low decimal digits of [n], most significant first. *)
Fixpoint digits (w : nat) (n : Z) : jsstring :=
  match w with
  | O => []
  | S w' => digits w' (n / 10) ++ [digit n]
  end.

(** Four digits for the years 0 to 9999, a sign and six digits otherwise. *)
Definition year_string (y : Z) : jsstring :=
  if (0 <=? y) && (y <=? 9999) then digits 4 y
  else (if y <? 0 then str "-" else str "+") ++ digits 6 (Z.abs y).

(** The fields [YYYY-MM-DDTHH:mm:ss.sssZ] put together. *)
Definition iso_fields (y mo d h mi s ms : Z) : jsstring :=
  year_string y ++ str "-" ++ digits 2 mo ++ str "-" ++ digits 2 d
    ++ str "T" ++ digits 2 h ++ str ":" ++ digits 2 mi ++ str ":" ++ digits 2 s
    ++ str "." ++ digits 3 ms ++ str "Z".

(** The text [Date.prototype.toISOString] produces for a finite time value. *)
Definition iso_format (t : Z) : jsstring :=
  let '(y, mo, d) := civil_from_days (t / msPerDay) in
  let r := t mod msPerDay in
  iso_fields y mo d (r / 3600000) (r / 60000 mod 60) (r / 1000 mod 60) (r mod 1000).

(** [new Date(value).toISOString()] for a numeric [value]: the constructor
    clips the value, and [toISOString] throws a [RangeError] on an invalid
    date. *)
Definition Date_toISOString (value : Z) : completion jsstring :=
  match TimeClip value with
  | Some t => Normal (iso_format t)
  | None => Throws RangeError
  end.

(** One parser, for the examples: it reads the texts
    [YYYY-MM-DDTHH:mm:ssZ] and [YYYY-MM-DDTHH:mm:ss.sssZ], with a year of
    four digits or a sign and six digits, and gives them the time value
    ECMA-262 (21.4.1.32) gives them.  [Date.parse] of an engine accepts more:
    the shorter forms of the same format, offsets other than [Z], and
    whatever else the engine chooses to read.  The validator below therefore
    takes the parser as a parameter, and the theorems hold for every
    parser. *)
Definition digit_value (c : N) : option Z :=
  if ((48 <=? c) && (c <=? 57))%N then Some (Z.of_N c - 48) else None.

Fixpoint read_digits (w : nat) (acc : Z) (s : jsstring) : option (Z * jsstring) :=
  match w with
  | O => Some (acc, s)
  | S w' =>
      match s with
      | c :: s' =>
          match digit_value c with
          | Some v => read_digits w' (10 * acc + v) s'
          | None => None
          end
      | [] => None
      end
  end.

Definition expect (c : N) (s : jsstring) : option jsstring :=
  match s with
  | c' :: s' => if (c =? c')%N then Some s' else None
  | [] => None
  end.

Definition read_fraction (s : jsstring) : option (Z * jsstring) :=
  match s with
  | 46%N :: s' => read_digits 3 0 s'
  | _ => Some (0, s)
  end.

(** The year: four digits, or a sign and six digits, [-000000] excepted. *)
Definition read_year (s : jsstring) : option (Z * jsstring) :=
  match s with
  | 43%N :: s' => read_digits 6 0 s'
  | 45%N :: s' =>
      '(y, s'') ← read_digits 6 0 s';
      if y =? 0 then None else Some (- y, s'')
  | _ => read_digits 4 0 s
  end.

Definition parse_iso_utc (s : jsstring) : option Z :=
  '(y, s) ← read_year s;
  s ← expect 45 s;
  '(mo, s) ← read_digits 2 0 s;
  s ← expect 45 s;
  '(d, s) ← read_digits 2 0 s;
  s ← expect 84 s;
  '(h, s) ← read_digits 2 0 s;
  s ← expect 58 s;
  '(mi, s) ← read_digits 2 0 s;
  s ← expect 58 s;
  '(sec, s) ← read_digits 2 0 s;
  '(ms, s) ← read_fraction s;
  s ← expect 90 s;
  let day := days_from_civil y mo d in
  if bool_decide (s = [] ∧ civil_from_days day = (y, mo, d)
                  ∧ h < 24 ∧ mi < 60 ∧ sec < 60)
  then Some (day * msPerDay + h * 3600000 + mi * 60000 + sec * 1000 + ms)
  else None.

(** ** Types ([src/types.ts]) *)

(** The two fields are of type [number].  The configurations of the
    embedding are those whose two numbers are integers, as the one of [main]
    (60 and 3) and those of the test suites are. *)
Record Config := {
  expected_interval_seconds : Z;
  allowed_misses : Z
}.

(** [timestamp] is the time value of the record's [Date]. *)
Record ParsedHeartbeat := {
  service : jsstring;
  timestamp : Z
}.

(** The alert's [service] field is [alert_service] here. *)
Record Alert := {
  alert_service : jsstring;
  alert_at : jsstring
}.

Record ValidationResult := {
  valid : list ParsedHeartbeat;
  invalid : nat
}.

Global Instance ParsedHeartbeat_eq_dec : EqDecision ParsedHeartbeat.
Proof. solve_decision. Defined.

(** ** Raw events: values of type [unknown] ([src/validator.ts]) *)

(** The values [JSON.parse] yields, and [undefined].  The payload of a number
    is never looked at. *)
#[warnings="-register-all"]
Inductive JsValue :=
  | JsUndefined
  | JsNull
  | JsBoolean (b : bool)
  | JsNumber (n : Z)
  | JsString (s : jsstring)
  | JsArray (items : list JsValue)
  | JsObject (props : list (jsstring * JsValue)).

Inductive JsType := TUndefined | TObject | TBoolean | TNumber | TString.

Definition typeof (v : JsValue) : JsType :=
  match v with
  | JsUndefined => TUndefined
  | JsNull => TObject
  | JsBoolean _ => TBoolean
  | JsNumber _ => TNumber
  | JsString _ => TString
  | JsArray _ => TObject
  | JsObject _ => TObject
  end.

Global Instance JsType_eq_dec : EqDecision JsType.
Proof. solve_decision. Defined.

(** The value a plain object holds under [key]. *)
Fixpoint lookup_prop (key : jsstring) (props : list (jsstring * JsValue)) : option JsValue :=
  match props with
  | (k, v) :: rest => if decide (k = key) then Some v else lookup_prop key rest
  | [] => None
  end.

(** [key in v] for a key that is neither an array index, nor [length], nor a
    member of [Object.prototype] or [Array.prototype]. *)
Definition has_property (key : jsstring) (v : JsValue) : bool :=
  match v with
  | JsObject props => bool_decide (is_Some (lookup_prop key props))
  | _ => false
  end.

(** [v.key], for the same keys. *)
Definition get_property (key : jsstring) (v : JsValue) : JsValue :=
  match v with
  | JsObject props => default JsUndefined (lookup_prop key props)
  | _ => JsUndefined
  end.

Definition is_null (v : JsValue) : bool :=
  match v with
  | JsNull => true
  | _ => false
  end.

Definition hasRequiredFields (event : JsValue) : bool :=
  bool_decide (typeof event = TObject)
  && negb (is_null event)
  && has_property (str "service") event
  && has_property (str "timestamp") event.

Definition isValidService (service : JsValue) : bool :=
  match service with
  | JsString s => (0 <? length (trim s))%nat
  | _ => false
  end.

Section Validator.

(** [Date.parse]: the time value a string parses to, [None] for NaN. *)
Variable Date_parse : jsstring -> option Z.

(** [new Date(text)] followed by the [isNaN(date.getTime())] test: the
    constructor clips what [Date.parse] returns. *)
Definition Date_of_string (text : jsstring) : option Z :=
  Date_parse text ≫= TimeClip.

Definition parseTimestamp (timestamp : JsValue) : option Z :=
  match timestamp with
  | JsString text => Date_of_string text
  | _ => None
  end.

Definition parseEvent (event : JsValue) : option ParsedHeartbeat :=
  if negb (hasRequiredFields event) then None
  else if negb (isValidService (get_property (str "service") event)) then None
  else
    match parseTimestamp (get_property (str "timestamp") event) with
    | None => None
    | Some timestamp =>
        match get_property (str "service") event with
        | JsString s => Some {| service := trim s; timestamp := timestamp |}
        | _ => None
        end
    end.

(** The loop of [validateAndParseEvents], from the accumulators [valid]
    and [invalid]. *)
Fixpoint validate_loop (events : list JsValue) (valid : list ParsedHeartbeat)
    (invalid : nat) : ValidationResult :=
  match events with
  | [] => {| valid := valid; invalid := invalid |}
  | event :: rest =>
      match parseEvent event with
      | Some parsed => validate_loop rest (valid ++ [parsed]) invalid
      | None => validate_loop rest valid (S invalid)
      end
  end.

Definition validateAndParseEvents (events : list JsValue) : ValidationResult :=
  validate_loop events [] 0%nat.

End Validator.

(** ** The analyzer ([src/analyzer.ts]) *)

(** [Array.prototype.sort] with a comparator: the sort is stable, so for a
    consistent comparator its result is the one of this insertion sort, where
    an element goes in front of the first one it does not compare greater
    than. *)
Section Sort.
Context {A : Type} (compare : A -> A -> Z).

Fixpoint sort_insert (x : A) (l : list A) : list A :=
  match l with
  | [] => [x]
  | y :: l' => if compare x y <=? 0 then x :: y :: l' else y :: sort_insert x l'
  end.

Fixpoint array_sort (l : list A) : list A :=
  match l with
  | [] => []
  | x :: l' => sort_insert x (array_sort l')
  end.
End Sort.

(** The comparator [(a, b) => a.timestamp.getTime() - b.timestamp.getTime()].
    The sort takes the sign of the result and nothing else, and rounding
    keeps the sign ([round_double_sign]): the difference is the exact one. *)
Definition by_timestamp (a b : ParsedHeartbeat) : Z := timestamp a - timestamp b.

(** Line 85: the sum and the two products, each rounded. *)
Definition thresholdMs (config : Config) : Z :=
  round_double
    (round_double (expected_interval_seconds config
                   * round_double (allowed_misses config + 1)) * 1000).

(** Lines 100 to 107: the alert for the gap that starts at [current].  The
    product and the sum are the exact ones: from the time value of a [Date]
    the rounded ones end in the same text or the same [RangeError]
    ([alert_instant_in_doubles]). *)
Definition make_alert (current : ParsedHeartbeat) (config : Config) : completion Alert :=
  let* alert_at := Date_toISOString (timestamp current + expected_interval_seconds config * 1000) in
  Normal {| alert_service := service current; alert_at := alert_at |}.

(** The [for] loop at index [i], with [n] iterations left. *)
Fixpoint scan_loop (sorted : list ParsedHeartbeat) (config : Config) (n i : nat)
    : completion (option Alert) :=
  match n with
  | O => Normal None
  | S n' =>
      match sorted !! i, sorted !! (i + 1)%nat with
      | Some current, Some next =>
          let gapMs := round_double (timestamp next - timestamp current) in
          if thresholdMs config <=? gapMs
          then let* alert := make_alert current config in Normal (Some alert)
          else scan_loop sorted config n' (i + 1)
      | _, _ => scan_loop sorted config n' (i + 1)
      end
  end.

Definition analyseServiceHeartbeats (heartbeats : list ParsedHeartbeat) (config : Config)
    : completion (option Alert) :=
  if (length heartbeats <? 2)%nat then Normal None
  else
    let sorted := array_sort by_timestamp heartbeats in
    scan_loop sorted config (length sorted - 1) 0.

(** A [Map] keeps its entries in insertion order: a list of entries with
    distinct keys. *)
Abbreviation js_map K V := (list (K * V)).

Fixpoint map_get {V} (key : jsstring) (m : js_map jsstring V) : option V :=
  match m with
  | [] => None
  | (k, v) :: m' => if decide (k = key) then Some v else map_get key m'
  end.

(** [set] keeps the place of a key that is present and appends a new one. *)
Fixpoint map_set {V} (key : jsstring) (value : V) (m : js_map jsstring V)
    : js_map jsstring V :=
  match m with
  | [] => [(key, value)]
  | (k, v) :: m' =>
      if decide (k = key) then (k, value) :: m' else (k, v) :: map_set key value m'
  end.

Definition group_step (grouped : js_map jsstring (list ParsedHeartbeat))
    (heartbeat : ParsedHeartbeat) : js_map jsstring (list ParsedHeartbeat) :=
  let existing := default [] (map_get (service heartbeat) grouped) in
  map_set (service heartbeat) (existing ++ [heartbeat]) grouped.

Definition groupHeartbeatsByService (heartbeats : list ParsedHeartbeat)
    : js_map jsstring (list ParsedHeartbeat) :=
  foldl group_step [] heartbeats.

(** The loop of [analyseAllHeartbeats] over the entries of the map. *)
Fixpoint collect_alerts (entries : js_map jsstring (list ParsedHeartbeat))
    (config : Config) (alerts : list Alert) : completion (list Alert) :=
  match entries with
  | [] => Normal alerts
  | (_, serviceHeartbeats) :: rest =>
      let* alert := analyseServiceHeartbeats serviceHeartbeats config in
      match alert with
      | Some a => collect_alerts rest config (alerts ++ [a])
      | None => collect_alerts rest config alerts
      end
  end.

Definition analyseAllHeartbeats (heartbeats : list ParsedHeartbeat) (config : Config)
    : completion (list Alert) :=
  collect_alerts (groupHeartbeatsByService heartbeats) config [].

(** ** The entry point ([src/main.ts]) *)

Definition detectMissedHeartbeats (Date_parse : jsstring -> option Z)
    (events : list JsValue) (config : Config) : completion (list Alert) :=
  analyseAllHeartbeats (valid (validateAndParseEvents Date_parse events)) config.

(** ** Inputs of the test suites *)

Definition config_60_3 : Config :=
  {| expected_interval_seconds := 60; allowed_misses := 3 |}.

(** A record of [service] at [hh:mm] on 2025-08-04 (UTC). *)
Definition beat (service : string) (hh mm : Z) : ParsedHeartbeat :=
  {| service := str service;
     timestamp := 1754265600000 + hh * 3600000 + mm * 60000 |}.

Definition event (service timestamp : string) : JsValue :=
  JsObject [(str "service", JsString (str service));
            (str "timestamp", JsString (str timestamp))].


Definition events_with_malformed : list JsValue :=
  [JsObject [(str "service", JsString (str "email"))];
   JsObject [(str "timestamp", JsString (str "2025-08-04T10:00:00Z"))];
   event "email" "invalid-date";
   event "email" "2025-08-04T10:00:00Z";
   event "email" "2025-08-04T10:01:00Z";
   event "email" "2025-08-04T10:02:00Z";
   event "email" "2025-08-04T10:06:00Z"].

(** Two records of one service at the two ends of the range of [Date], one
    millisecond short of the whole range apart, the events they come from,
    and two configurations whose threshold is the whole range: 8.64e12 s
    with one miss allowed, and 1.728e13 s with none. *)
Definition beats_at_the_ends : list ParsedHeartbeat :=
  [{| service := str "a"; timestamp := -8639999999999999 |};
   {| service := str "a"; timestamp := 8640000000000000 |}].


Definition config_range_1 : Config :=
  {| expected_interval_seconds := 8640000000000; allowed_misses := 1 |}.


(** ** Notions of the specification *)

(** The threshold of the specification, in seconds; [thresholdMs] is what
    the code makes of this number times 1000. *)
Definition thresholdSeconds (config : Config) : Z :=
  expected_interval_seconds config * (allowed_misses config + 1).

Definition well_formed_config (config : Config) : Prop :=
  0 < expected_interval_seconds config /\ 0 <= allowed_misses config.

(** What the validator guarantees of a record. *)
Definition valid_record (r : ParsedHeartbeat) : Prop :=
  service r <> [] /\ trim (service r) = service r /\ valid_time (timestamp r).

Definition time_le (a b : ParsedHeartbeat) : Prop := timestamp a <= timestamp b.

(** [sorted] is [heartbeats] in chronological order. *)
Definition chronological (heartbeats sorted : list ParsedHeartbeat) : Prop :=
  sorted ≡ₚ heartbeats /\ Sorted time_le sorted.

Definition single_service (s : jsstring) (heartbeats : list ParsedHeartbeat) : Prop :=
  Forall (fun r => service r = s) heartbeats.

(** The records at positions [i] and [i + 1] are at least the threshold
    apart. *)
Definition qualifying_gap (config : Config) (sorted : list ParsedHeartbeat) (i : nat) : Prop :=
  exists current next,
    sorted !! i = Some current /\ sorted !! S i = Some next
    /\ thresholdSeconds config * 1000 <= timestamp next - timestamp current.

(** Position [i] holds the first qualifying gap, which starts at [current]. *)
Definition first_qualifying_gap (config : Config) (sorted : list ParsedHeartbeat)
    (i : nat) (current : ParsedHeartbeat) : Prop :=
  sorted !! i = Some current /\ qualifying_gap config sorted i
  /\ forall k, (k < i)%nat -> ~ qualifying_gap config sorted k.

(** The comparison of the loop holds for the records at positions [i] and
    [i + 1]: their gap as the code computes it is at least the threshold as
    the code computes it. *)
Definition alerting_gap (config : Config) (sorted : list ParsedHeartbeat) (i : nat) : Prop :=
  exists current next,
    sorted !! i = Some current /\ sorted !! S i = Some next
    /\ thresholdMs config <= round_double (timestamp next - timestamp current).

(** Position [i] is the first where the comparison holds, and [current] is
    the record there. *)
Definition first_alerting_gap (config : Config) (sorted : list ParsedHeartbeat)
    (i : nat) (current : ParsedHeartbeat) : Prop :=
  sorted !! i = Some current /\ alerting_gap config sorted i
  /\ forall k, (k < i)%nat -> ~ alerting_gap config sorted k.

(** The records of [heartbeats] that bear the identifier [key]. *)
Definition records_of (key : jsstring) (heartbeats : list ParsedHeartbeat)
    : list ParsedHeartbeat :=
  filter (fun r => service r = key) heartbeats.

(** The alerts of a run over per-group results, in order; the first
    exception wins. *)
Fixpoint gather (results : list (completion (option Alert))) : completion (list Alert) :=
  match results with
  | [] => Normal []
  | r :: rest =>
      let* alert := r in
      let* alerts := gather rest in
      Normal (option_list alert ++ alerts)
  end.

(** Two runs end alike: with the same alerts in some order, or with the same
    exception. *)
Definition same_alert_set (r1 r2 : completion (list Alert)) : Prop :=
  match r1, r2 with
  | Normal alerts1, Normal alerts2 => alerts1 ≡ₚ alerts2
  | Throws e1, Throws e2 => e1 = e2
  | _, _ => False
  end.

(** [text] is made of the fields [YYYY-MM-DDTHH:mm:ss.sssZ] of a date of the
    calendar, with a year of six digits at most, and a time of day, and the
    UTC instant they name is [t] milliseconds from the epoch. *)
Definition denotes_instant (text : jsstring) (t : Z) : Prop :=
  exists y mo d h mi s ms,
    text = iso_fields y mo d h mi s ms
    /\ civil_from_days (days_from_civil y mo d) = (y, mo, d)
    /\ -999999 <= y <= 999999
    /\ 1 <= mo <= 12 /\ 1 <= d <= 31
    /\ 0 <= h < 24 /\ 0 <= mi < 60 /\ 0 <= s < 60 /\ 0 <= ms < 1000
    /\ t = days_from_civil y mo d * msPerDay
           + h * 3600000 + mi * 60000 + s * 1000 + ms.

(** The ways of the specification for a raw event to be invalid: it lacks a
    required field (anything that is not a record lacks both), its service is
    not a text or is blank once trimmed, or its timestamp is not a text or
    does not parse to an instant. *)
Definition lacks_field (key : jsstring) (event : JsValue) : Prop :=
  forall props, event = JsObject props -> lookup_prop key props = None.

Definition service_not_text_or_blank (event : JsValue) : Prop :=
  forall s, get_property (str "service") event = JsString s -> trim s = [].

Definition timestamp_not_text_or_unparseable (Date_parse : jsstring -> option Z)
    (event : JsValue) : Prop :=
  forall text, get_property (str "timestamp") event = JsString text ->
    Date_of_string Date_parse text = None.

Definition invalid_event (Date_parse : jsstring -> option Z) (event : JsValue) : Prop :=
  lacks_field (str "service") event
  \/ lacks_field (str "timestamp") event
  \/ service_not_text_or_blank event
  \/ timestamp_not_text_or_unparseable Date_parse event.
(** ** Further notions *)

(** Every code unit of [s] is white space. *)
Definition all_white_space (s : jsstring) : Prop :=
  Forall (fun c => is_white_space c = true) s.

(** The earlier record of the first two neighbours of [sorted] whose gap,
    as the code computes it, is at least [threshold]: what the loop of
    [analyseServiceHeartbeats] looks for. *)
Fixpoint first_gap (threshold : Z) (sorted : list ParsedHeartbeat) : option ParsedHeartbeat :=
  match sorted with
  | current :: (next :: _) as rest =>
      if threshold <=? round_double (timestamp next - timestamp current) then Some current
      else first_gap threshold rest
  | _ => None
  end.

(** The result of the detector when the gap it stops at starts at [found]. *)
Definition alert_of (config : Config) (found : option ParsedHeartbeat)
    : completion (option Alert) :=
  match found with
  | Some current => let* alert := make_alert current config in Normal (Some alert)
  | None => Normal None
  end.

(** The members of [l], each at the place where it comes first. *)
Fixpoint first_occurrences (l : list jsstring) : list jsstring :=
  match l with
  | [] => []
  | x :: l' => x :: filter (fun y => y <> x) (first_occurrences l')
  end.

(** ** Output ([src/utils.ts]) *)

Definition LF : jsstring := [10%N].

(** The decimal digits of [n >= 0], without leading zero; [fuel] bounds the
    number of digits. *)
Fixpoint decimal (fuel : nat) (n : Z) : jsstring :=
  match fuel with
  | O => []
  | S fuel' => if n <? 10 then [digit n] else decimal fuel' (n / 10) ++ [digit n]
  end.

(** The text of an integer in a template literal ([Number::toString]). *)
Definition Number_toString (n : Z) : jsstring :=
  if n <? 0 then str "-" ++ decimal (S (Z.to_nat (- n))) (- n)
  else decimal (S (Z.to_nat n)) n.

(** [Array.prototype.join] on an array of texts. *)
Fixpoint join (separator : jsstring) (items : list jsstring) : jsstring :=
  match items with
  | [] => []
  | item :: rest =>
      match rest with
      | [] => item
      | _ :: _ => item ++ separator ++ join separator rest
      end
  end.

(** The arrow function of [formatAlerts]: the line of one alert. *)
Definition alert_line (alert : Alert) : jsstring :=
  str " Service: " ++ alert_service alert ++ str " -> Alert at: " ++ alert_at alert.

Definition formatAlerts (alerts : list Alert) : jsstring :=
  if (length alerts =? 0)%nat then str "No alerts detected"
  else
    let lines := map alert_line alerts in
    str "Found " ++ Number_toString (Z.of_nat (length alerts)) ++ str " alert(s):"
      ++ LF ++ join LF lines.

(** [console.log] appends its argument to the texts logged so far; a
    function that logs returns the texts it logs, in order. *)
Definition logValidationStats (valid invalid : nat) : list jsstring :=
  [LF ++ str " Validation Statistics:";
   str " Valid events: " ++ Number_toString (Z.of_nat valid);
   str "Invalid events (skipped): " ++ Number_toString (Z.of_nat invalid);
   str " Total events: " ++ Number_toString (Z.of_nat (valid + invalid))].

(** *** [JSON.stringify(alerts, null, 2)] (ECMA-262, 25.5.2) *)

Definition hex_digit (n : N) : N := (if n <? 10 then 48 + n else 87 + n)%N.

(** [UnicodeEscape]: a backslash, [u] and four lower-case hexadecimal
    digits. *)
Definition UnicodeEscape (c : N) : jsstring :=
  [92; 117; hex_digit (c / 4096 mod 16); hex_digit (c / 256 mod 16);
   hex_digit (c / 16 mod 16); hex_digit (c mod 16)]%N.

Definition is_leading_surrogate (c : N) : bool := ((55296 <=? c) && (c <=? 56319))%N.
Definition is_trailing_surrogate (c : N) : bool := ((56320 <=? c) && (c <=? 57343))%N.

(** A code unit that is no surrogate, as [QuoteJSONString] writes it. *)
Definition quote_code_unit (c : N) : jsstring :=
  if (c =? 8)%N then [92; 98]%N
  else if (c =? 9)%N then [92; 116]%N
  else if (c =? 10)%N then [92; 110]%N
  else if (c =? 12)%N then [92; 102]%N
  else if (c =? 13)%N then [92; 114]%N
  else if (c =? 34)%N then [92; 34]%N
  else if (c =? 92)%N then [92; 92]%N
  else if (c <? 32)%N then UnicodeEscape c
  else [c].

(** The code points of the text in turn: a surrogate pair is written as it
    is, a surrogate on its own is escaped. *)
Fixpoint quote_code_points (s : jsstring) : jsstring :=
  match s with
  | [] => []
  | c :: rest =>
      if is_leading_surrogate c then
        match rest with
        | d :: rest' =>
            if is_trailing_surrogate d then c :: d :: quote_code_points rest'
            else UnicodeEscape c ++ quote_code_points rest
        | [] => UnicodeEscape c
        end
      else if is_trailing_surrogate c then UnicodeEscape c ++ quote_code_points rest
      else quote_code_unit c ++ quote_code_points rest
  end.

Definition QuoteJSONString (s : jsstring) : jsstring :=
  [34%N] ++ quote_code_points s ++ [34%N].

(** An alert object inside the array: its two properties, in the order in
    which [analyseServiceHeartbeats] creates them, at the indentation of the
    second level. *)
Definition json_alert (alert : Alert) : jsstring :=
  str "{" ++ LF ++ str "    "
    ++ QuoteJSONString (str "service") ++ str ": " ++ QuoteJSONString (alert_service alert)
    ++ str "," ++ LF ++ str "    "
    ++ QuoteJSONString (str "alert_at") ++ str ": " ++ QuoteJSONString (alert_at alert)
    ++ LF ++ str "  " ++ str "}".

Definition formatAlertsAsJson (alerts : list Alert) : jsstring :=
  match alerts with
  | [] => str "[]"
  | _ :: _ =>
      str "[" ++ LF ++ str "  "
        ++ join (str "," ++ LF ++ str "  ") (map json_alert alerts)
        ++ LF ++ str "]"
  end.

(** An ASCII literal between double quotes, for the examples. *)
Definition quoted (s : string) : jsstring := [34%N] ++ str s ++ [34%N].

(** ** The program ([main] of [src/main.ts])

    What [main] does once the file system has answered: [file] is the value
    [JSON.parse] makes of the content of the input file, or [None] when
    [readFileSync] or [JSON.parse] throws (an [Error] in both cases).  The
    result is the texts logged, in order, and the status [process.exit] is
    called with, if it is called. *)

Record Outcome := {
  logged : list jsstring;
  exit_status : option Z
}.

Definition main_config : Config :=
  {| expected_interval_seconds := 60; allowed_misses := 3 |}.

(** The texts logged before the [try] block. *)
Definition main_header : list jsstring :=
  [str "Heartbeat Monitor Starting..." ++ LF;
   str "Configuration:";
   str "Expected interval: " ++ Number_toString (expected_interval_seconds main_config);
   str "Allowed Misses: " ++ Number_toString (allowed_misses main_config)].

(** The [catch] block, for an exception that is an [Error]. *)
Definition main_catch (logged_so_far : list jsstring) : Outcome :=
  {| logged := logged_so_far ++ [str "error.message"]; exit_status := Some 1 |}.

Definition main (Date_parse : jsstring -> option Z) (file : option JsValue) : Outcome :=
  match file with
  | None => main_catch main_header
  | Some (JsArray events) =>
      let result := validateAndParseEvents Date_parse events in
      let stats := logValidationStats (length (valid result)) (invalid result) in
      match analyseAllHeartbeats (valid result) main_config with
      | Throws _ => main_catch (main_header ++ stats)
      | Normal alerts =>
          if (length alerts =? 0)%nat
          then {| logged := main_header ++ stats ++ [str "No error found."];
                  exit_status := None |}
          else {| logged := main_header ++ stats
                            ++ [formatAlerts alerts; LF ++ formatAlertsAsJson alerts];
                  exit_status := None |}
      end
  | Some _ =>
      {| logged := main_header ++ [str "Input file must contain an array of events"];
         exit_status := Some 1 |}
  end.

(** *** Reading a JSON string back (ECMA-404, section 9) *)

Definition hex_value (c : N) : option N :=
  if ((48 <=? c) && (c <=? 57))%N then Some (c - 48)%N
  else if ((97 <=? c) && (c <=? 102))%N then Some (c - 87)%N
  else None.

(** The code unit a short escape stands for. *)
Definition unescape (e : N) : option N :=
  if (e =? 98)%N then Some 8%N
  else if (e =? 116)%N then Some 9%N
  else if (e =? 110)%N then Some 10%N
  else if (e =? 102)%N then Some 12%N
  else if (e =? 114)%N then Some 13%N
  else if (e =? 34)%N then Some 34%N
  else if (e =? 92)%N then Some 92%N
  else if (e =? 47)%N then Some 47%N
  else None.

Definition read_more (c : N) (more : option (jsstring * jsstring))
    : option (jsstring * jsstring) :=
  match more with
  | Some (s, rest) => Some (c :: s, rest)
  | None => None
  end.

(** The text of a JSON string whose opening quote has been read, up to the
    closing quote, and the input that follows. *)
Fixpoint read_json_chars (input : jsstring) : option (jsstring * jsstring) :=
  match input with
  | [] => None
  | c :: rest =>
      if (c =? 34)%N then Some ([], rest)
      else if (c =? 92)%N then
        match rest with
        | [] => None
        | e :: rest1 =>
            if (e =? 117)%N then
              match rest1 with
              | h1 :: h2 :: h3 :: h4 :: rest2 =>
                  match hex_value h1, hex_value h2, hex_value h3, hex_value h4 with
                  | Some a, Some b, Some c', Some d =>
                      read_more (4096 * a + 256 * b + 16 * c' + d)%N (read_json_chars rest2)
                  | _, _, _, _ => None
                  end
              | _ => None
              end
            else
              match unescape e with
              | Some u => read_more u (read_json_chars rest1)
              | None => None
              end
        end
      else read_more c (read_json_chars rest)
  end.

(** ** Further inputs for the examples *)

Definition event_spaced : list (jsstring * JsValue) :=
  [(str "service", JsString (str "  email  "));
   (str "timestamp", JsString (str "2025-08-04T10:00:00Z"))].

Definition event_with_more : list (jsstring * JsValue) :=
  [(str "host", JsString (str "a1"));
   (str "timestamp", JsString (str "2025-08-04T10:00:00Z"));
   (str "service", JsString (str "  email  "));
   (str "seq", JsNumber 7)].

Definition event_plain : list (jsstring * JsValue) :=
  [(str "service", JsString (str "email"));
   (str "timestamp", JsString (str "2025-08-04T10:00:00Z"))].

Definition config_60_5 : Config :=
  {| expected_interval_seconds := 60; allowed_misses := 5 |}.

Definition config_no_miss_allowed : Config :=
  {| expected_interval_seconds := 60; allowed_misses := -1 |}.

Definition alert_email : Alert :=
  {| alert_service := str "email"; alert_at := str "2025-08-04T10:03:00.000Z" |}.

Definition alert_push : Alert :=
  {| alert_service := str "push"; alert_at := str "2025-08-04T10:01:00.000Z" |}.

Definition beats_email : list ParsedHeartbeat :=
  [beat "email" 10 0; beat "email" 10 1; beat "email" 10 2; beat "email" 10 6].

Definition beats_push : list ParsedHeartbeat :=
  [beat "push" 10 0; beat "push" 10 5].

(** * Examples *)

Example iso_format_epoch : iso_format 0 = str "1970-01-01T00:00:00.000Z".
Proof. reflexivity. Qed.

Example iso_format_2025 :
  iso_format 1754301780000 = str "2025-08-04T10:03:00.000Z".
Proof. vm_compute. reflexivity. Qed.

Example iso_format_before_epoch :
  iso_format (-1) = str "1969-12-31T23:59:59.999Z".
Proof. vm_compute. reflexivity. Qed.

Example iso_format_leap_day :
  iso_format 951782400123 = str "2000-02-29T00:00:00.123Z".
Proof. vm_compute. reflexivity. Qed.

Example iso_format_max : iso_format max_time = str "+275760-09-13T00:00:00.000Z".
Proof. vm_compute. reflexivity. Qed.

Example iso_format_min : iso_format (- max_time) = str "-271821-04-20T00:00:00.000Z".
Proof. vm_compute. reflexivity. Qed.

Example toISOString_out_of_range :
  Date_toISOString (max_time + 1) = Throws RangeError.
Proof. reflexivity. Qed.

Example parse_iso_utc_2025 :
  parse_iso_utc (str "2025-08-04T10:00:00Z") = Some 1754301600000.
Proof. vm_compute. reflexivity. Qed.

Example parse_iso_utc_fraction :
  parse_iso_utc (str "2000-02-29T00:00:00.123Z") = Some 951782400123.
Proof. vm_compute. reflexivity. Qed.

Example parse_iso_utc_first_date :
  parse_iso_utc (str "-271821-04-20T00:00:00.000Z") = Some (- max_time).
Proof. vm_compute. reflexivity. Qed.

Example parse_iso_utc_last_date :
  parse_iso_utc (str "+275760-09-13T00:00:00.000Z") = Some max_time.
Proof. vm_compute. reflexivity. Qed.

Example parse_iso_utc_year_minus_zero :
  parse_iso_utc (str "-000000-01-01T00:00:00.000Z") = None.
Proof. vm_compute. reflexivity. Qed.

Example parse_iso_utc_garbage : parse_iso_utc (str "not-a-real-timestamp") = None.
Proof. vm_compute. reflexivity. Qed.

Example parse_iso_utc_no_such_day : parse_iso_utc (str "2025-02-30T10:00:00Z") = None.
Proof. vm_compute. reflexivity. Qed.

Example trim_email : trim (str "  email  ") = str "email".
Proof. reflexivity. Qed.

Example trim_blank : trim (str "   ") = [].
Proof. reflexivity. Qed.

Example analyse_working_alert :
  analyseServiceHeartbeats
    [beat "email" 10 0; beat "email" 10 1; beat "email" 10 2; beat "email" 10 6]
    config_60_3
  = Normal (Some {| alert_service := str "email";
                    alert_at := str "2025-08-04T10:03:00.000Z" |}).
Proof. vm_compute. reflexivity. Qed.

Example analyse_near_miss :
  analyseServiceHeartbeats [beat "sms" 10 0; beat "sms" 10 3] config_60_3 = Normal None.
Proof. vm_compute. reflexivity. Qed.

Example analyse_unordered :
  analyseServiceHeartbeats
    [beat "push" 10 6; beat "push" 10 0; beat "push" 10 2; beat "push" 10 1]
    config_60_3
  = Normal (Some {| alert_service := str "push";
                    alert_at := str "2025-08-04T10:03:00.000Z" |}).
Proof. vm_compute. reflexivity. Qed.

Example analyse_exact_threshold :
  analyseServiceHeartbeats [beat "test" 10 0; beat "test" 10 4] config_60_3
  = Normal (Some {| alert_service := str "test";
                    alert_at := str "2025-08-04T10:01:00.000Z" |}).
Proof. vm_compute. reflexivity. Qed.

Example analyse_two_gaps :
  analyseServiceHeartbeats
    [beat "email" 10 0; beat "email" 10 5; beat "email" 10 10] config_60_3
  = Normal (Some {| alert_service := str "email";
                    alert_at := str "2025-08-04T10:01:00.000Z" |}).
Proof. vm_compute. reflexivity. Qed.

Example group_by_service :
  groupHeartbeatsByService
    [beat "email" 10 0; beat "sms" 10 0; beat "email" 10 1; beat "push" 10 0]
  = [(str "email", [beat "email" 10 0; beat "email" 10 1]);
     (str "sms", [beat "sms" 10 0]);
     (str "push", [beat "push" 10 0])].
Proof. vm_compute. reflexivity. Qed.

Example group_is_case_sensitive :
  groupHeartbeatsByService [beat "Email" 10 0; beat "email" 10 1; beat "Email" 10 2]
  = [(str "Email", [beat "Email" 10 0; beat "Email" 10 2]);
     (str "email", [beat "email" 10 1])].
Proof. vm_compute. reflexivity. Qed.

Example analyse_all_services :
  analyseAllHeartbeats
    [beat "email" 10 0; beat "email" 10 1; beat "email" 10 2; beat "email" 10 6;
     beat "sms" 10 0; beat "sms" 10 1; beat "sms" 10 2;
     beat "push" 10 0; beat "push" 10 5]
    config_60_3
  = Normal [{| alert_service := str "email"; alert_at := str "2025-08-04T10:03:00.000Z" |};
            {| alert_service := str "push"; alert_at := str "2025-08-04T10:01:00.000Z" |}].
Proof. vm_compute. reflexivity. Qed.

Example validate_malformed :
  validateAndParseEvents parse_iso_utc
    [JsNull; JsUndefined; JsString (str "string"); JsNumber 123;
     JsObject [(str "randomField", JsString (str "value"))];
     JsObject [(str "service", JsString (str "email"))];
     event "" "2025-08-04T10:00:00Z";
     event "   " "2025-08-04T10:00:00Z";
     event "email" "invalid-date";
     event "  email  " "2025-08-04T10:00:00Z"]
  = {| valid := [beat "email" 10 0]; invalid := 9 |}.
Proof. vm_compute. reflexivity. Qed.

Example detect_with_malformed :
  detectMissedHeartbeats parse_iso_utc
    [JsObject [(str "service", JsString (str "email"))];
     JsObject [(str "timestamp", JsString (str "2025-08-04T10:00:00Z"))];
     event "email" "invalid-date";
     event "email" "2025-08-04T10:00:00Z";
     event "email" "2025-08-04T10:01:00Z";
     event "email" "2025-08-04T10:02:00Z";
     event "email" "2025-08-04T10:06:00Z"]
    config_60_3
  = Normal [{| alert_service := str "email"; alert_at := str "2025-08-04T10:03:00.000Z" |}].
Proof. vm_compute. reflexivity. Qed.

(** * Properties *)

(** ** The sort *)

Section SortFacts.
Context {A : Type} (compare : A -> A -> Z).

Lemma sort_insert_Permutation x l : sort_insert compare x l ≡ₚ x :: l.
Proof.
  induction l as [|y l IH]; simpl; [done|].
  destruct (compare x y <=? 0); [done|].
  rewrite IH. apply Permutation_swap.
Qed.

Lemma array_sort_Permutation l : array_sort compare l ≡ₚ l.
Proof.
  induction l as [|x l IH]; simpl; [done|].
  by rewrite sort_insert_Permutation, IH.
Qed.
End SortFacts.

Global Instance time_le_trans : Transitive time_le.
Proof. unfold time_le. intros a b c. lia. Qed.

Lemma sort_insert_StronglySorted x l :
  StronglySorted time_le l -> StronglySorted time_le (sort_insert by_timestamp x l).
Proof.
  induction 1 as [|y l Hl IH Hy]; simpl.
  - repeat constructor.
  - unfold by_timestamp at 1. destruct (Z.leb_spec (timestamp x - timestamp y) 0) as [Hle|Hgt].
    + constructor; [by constructor|].
      constructor; [unfold time_le; lia|].
      eapply Forall_impl; [exact Hy|]. unfold time_le. intros z. simpl. lia.
    + constructor; [done|].
      rewrite sort_insert_Permutation. constructor; [unfold time_le; lia|done].
Qed.

Lemma array_sort_StronglySorted l : StronglySorted time_le (array_sort by_timestamp l).
Proof.
  induction l as [|x l IH]; simpl; [constructor|].
  by apply sort_insert_StronglySorted.
Qed.

Lemma array_sort_chronological l : chronological l (array_sort by_timestamp l).
Proof.
  split; [apply array_sort_Permutation|].
  apply StronglySorted_Sorted, array_sort_StronglySorted.
Qed.

(** Records of one service have one chronological order. *)
Lemma chronological_unique s l sorted :
  single_service s l -> chronological l sorted -> sorted = array_sort by_timestamp l.
Proof.
  intros Hs [Hp Hsorted].
  apply StronglySorted_unique_strong with (R := time_le).
  - intros x1 x2 H1 H2 H12 H21.
    rewrite Hp in H1. rewrite array_sort_Permutation in H2.
    unfold single_service in Hs. rewrite Forall_forall in Hs.
    pose proof (Hs _ H1) as E1. pose proof (Hs _ H2) as E2.
    unfold time_le in *. destruct x1, x2; simpl in *. f_equal; [congruence|lia].
  - apply Sorted_StronglySorted; [apply _|done].
  - apply array_sort_StronglySorted.
  - by rewrite Hp, array_sort_Permutation.
Qed.

(** The sort is stable: records with the same instant keep their order. *)
Lemma sort_insert_stable t x l :
  filter (fun r => timestamp r = t) (sort_insert by_timestamp x l)
  = filter (fun r => timestamp r = t) (x :: l).
Proof.
  induction l as [|y l IH]; simpl; [done|].
  unfold by_timestamp at 1.
  destruct (Z.leb_spec (timestamp x - timestamp y) 0) as [Hle|Hgt]; [done|].
  rewrite (filter_cons _ y), IH, !(filter_cons _ x), (filter_cons _ y).
  destruct (decide (timestamp x = t)), (decide (timestamp y = t)); try done. lia.
Qed.

Lemma array_sort_stable t l :
  filter (fun r => timestamp r = t) (array_sort by_timestamp l)
  = filter (fun r => timestamp r = t) l.
Proof.
  induction l as [|x l IH]; simpl; [done|].
  by rewrite sort_insert_stable, !(filter_cons _ x), IH.
Qed.

(** ** Dates *)

Lemma valid_timeb_spec t : valid_timeb t = true <-> valid_time t.
Proof. unfold valid_timeb, valid_time. rewrite andb_true_iff, !Z.leb_le. done. Qed.

Lemma TimeClip_valid t : valid_time t -> TimeClip t = Some t.
Proof. intros H. unfold TimeClip. by apply valid_timeb_spec in H as ->. Qed.

Lemma TimeClip_Some t t' : TimeClip t = Some t' -> t' = t /\ valid_time t.
Proof.
  unfold TimeClip. destruct (valid_timeb t) eqn:E; [|done].
  intros [= <-]. split; [done|]. by apply valid_timeb_spec.
Qed.

Lemma Date_toISOString_valid t :
  valid_time t -> Date_toISOString t = Normal (iso_format t).
Proof. intros H. unfold Date_toISOString. by rewrite TimeClip_valid. Qed.

Lemma Date_toISOString_Normal t text :
  Date_toISOString t = Normal text -> text = iso_format t /\ valid_time t.
Proof.
  unfold Date_toISOString. destruct (TimeClip t) as [t'|] eqn:E; [|done].
  apply TimeClip_Some in E as [-> Hv]. by intros [= <-].
Qed.

Lemma day_of_era_range z : 0 <= z - z / 146097 * 146097 < 146097.
Proof. Z.div_mod_to_equations. lia. Qed.

Lemma year_of_era_range doe :
  0 <= doe < 146097 ->
  let yoe := (doe - doe / 1460 + doe / 36524 - doe / 146096) / 365 in
  let doy := doe - (365 * yoe + yoe / 4 - yoe / 100) in
  0 <= yoe <= 399 /\ 0 <= doy <= 365.
Proof. intros H. cbv zeta. Z.div_mod_to_equations. lia. Qed.

(** The calendar date of a day number has a month and a day in range, and
    [days_from_civil] takes it back to the day number. *)
Lemma civil_from_days_spec day y m d :
  civil_from_days day = (y, m, d) ->
  1 <= m <= 12 /\ 1 <= d <= 31 /\ days_from_civil y m d = day.
Proof.
  unfold civil_from_days. cbv zeta.
  set (z := day + 719468).
  set (era := z / 146097).
  set (doe := z - era * 146097).
  pose proof (day_of_era_range z) as Hdoe. fold era doe in Hdoe.
  pose proof (year_of_era_range doe Hdoe) as Hy. cbv zeta in Hy.
  set (yoe := (doe - doe / 1460 + doe / 36524 - doe / 146096) / 365) in *.
  set (doy := doe - (365 * yoe + yoe / 4 - yoe / 100)) in *.
  set (mp := (5 * doy + 2) / 153).
  assert (Hmp : 0 <= mp <= 11) by (unfold mp; Z.div_mod_to_equations; lia).
  intros Heq. apply pair_equal_spec in Heq as [Heq <-].
  apply pair_equal_spec in Heq as [<- <-].
  assert (Hd : 1 <= doy - (153 * mp + 2) / 5 + 1 <= 31).
  { unfold mp. Z.div_mod_to_equations. lia. }
  split; [destruct (Z.ltb_spec mp 10); lia|].
  split; [exact Hd|].
  unfold days_from_civil. cbv zeta.
  destruct (Z.ltb_spec mp 10) as [Hlt|Hge].
  - destruct (Z.leb_spec (mp + 3) 2); [lia|].
    destruct (Z.ltb_spec 2 (mp + 3)); [|lia].
    replace ((yoe + era * 400 + 0) / 400) with era by (Z.div_mod_to_equations; lia).
    replace (yoe + era * 400 + 0 - era * 400) with yoe by lia.
    replace (mp + 3 - 3) with mp by lia.
    unfold doy, doe, z. lia.
  - destruct (Z.leb_spec (mp - 9) 2); [|lia].
    destruct (Z.ltb_spec 2 (mp - 9)); [lia|].
    replace (mp - 9 + 9) with mp by lia.
    replace ((yoe + era * 400 + 1 - 1) / 400) with era by (Z.div_mod_to_equations; lia).
    replace (yoe + era * 400 + 1 - 1 - era * 400) with yoe by lia.
    unfold doy, doe, z. lia.
Qed.

(** The years of valid time values have six digits at most. *)
Lemma civil_from_days_year day y m d :
  -100000000 <= day <= 100000000 ->
  civil_from_days day = (y, m, d) -> -999999 <= y <= 999999.
Proof.
  unfold civil_from_days. cbv zeta. intros Hday.
  set (z := day + 719468).
  set (era := z / 146097).
  set (doe := z - era * 146097).
  pose proof (day_of_era_range z) as Hdoe. fold era doe in Hdoe.
  pose proof (year_of_era_range doe Hdoe) as Hy. cbv zeta in Hy.
  set (yoe := (doe - doe / 1460 + doe / 36524 - doe / 146096) / 365) in *.
  intros Heq. apply pair_equal_spec in Heq as [Heq _].
  apply pair_equal_spec in Heq as [<- _].
  assert (-1000 <= era <= 1000) by (unfold era, z; Z.div_mod_to_equations; lia).
  destruct (_ <=? 2); lia.
Qed.

(** The text of [toISOString] names the instant it renders. *)
Lemma iso_format_denotes t : valid_time t -> denotes_instant (iso_format t) t.
Proof.
  intros Hvalid. unfold iso_format.
  destruct (civil_from_days (t / msPerDay)) as [[y mo] d] eqn:Hcivil.
  destruct (civil_from_days_spec _ _ _ _ Hcivil) as (Hmo & Hd & Hday).
  assert (Hy : -999999 <= y <= 999999).
  { apply (civil_from_days_year (t / msPerDay) y mo d); [|done].
    unfold valid_time, max_time, msPerDay in *. Z.div_mod_to_equations. lia. }
  exists y, mo, d, (t mod msPerDay / 3600000), (t mod msPerDay / 60000 mod 60),
    (t mod msPerDay / 1000 mod 60), (t mod msPerDay mod 1000).
  split; [done|]. split; [by rewrite Hday|].
  split; [done|]. split; [done|]. split; [done|].
  rewrite Hday. unfold msPerDay. Z.div_mod_to_equations. lia.
Qed.

(** *** A text names one instant at most *)

Lemma digits_length w n : length (digits w n) = w.
Proof.
  revert n. induction w as [|w IH]; intros n; simpl; [done|].
  rewrite length_app, IH. simpl. lia.
Qed.

Lemma digit_inj n n' : digit n = digit n' -> n mod 10 = n' mod 10.
Proof.
  unfold digit. intros H.
  pose proof (Z.mod_pos_bound n 10 eq_refl).
  pose proof (Z.mod_pos_bound n' 10 eq_refl). lia.
Qed.

Lemma digits_inj w n n' :
  0 <= n < 10 ^ Z.of_nat w -> 0 <= n' < 10 ^ Z.of_nat w ->
  digits w n = digits w n' -> n = n'.
Proof.
  revert n n'. induction w as [|w IH]; intros n n' Hn Hn'.
  - simpl in *. lia.
  - rewrite Nat2Z.inj_succ, Z.pow_succ_r in Hn, Hn' by lia. simpl.
    intros Heq. apply app_inj_2 in Heq as [Hhigh Hlow]; [|done].
    injection Hlow as Hlow. apply digit_inj in Hlow.
    assert (n / 10 = n' / 10).
    { apply IH; [| |done]; Z.div_mod_to_equations; lia. }
    Z.div_mod_to_equations. lia.
Qed.

Lemma year_string_length y :
  length (year_string y) = if (0 <=? y) && (y <=? 9999) then 4%nat else 7%nat.
Proof.
  unfold year_string. destruct ((0 <=? y) && (y <=? 9999)).
  - apply digits_length.
  - destruct (y <? 0); by rewrite length_app, digits_length.
Qed.

Lemma year_string_inj y y' :
  -999999 <= y <= 999999 -> -999999 <= y' <= 999999 ->
  year_string y = year_string y' -> y = y'.
Proof.
  intros Hy Hy' Heq.
  pose proof (f_equal length Heq) as Hlen. rewrite !year_string_length in Hlen.
  unfold year_string in Heq.
  destruct ((0 <=? y) && (y <=? 9999)) eqn:E, ((0 <=? y') && (y' <=? 9999)) eqn:E';
    try done.
  - apply andb_true_iff in E as [?%Z.leb_le ?%Z.leb_le].
    apply andb_true_iff in E' as [?%Z.leb_le ?%Z.leb_le].
    apply (digits_inj 4); [simpl; lia..|done].
  - apply andb_false_iff in E, E'. rewrite !Z.leb_gt in E, E'.
    apply app_inj_2 in Heq as [Hsign Heq]; [|by rewrite !digits_length].
    apply (digits_inj 6) in Heq; [|simpl; lia..].
    destruct (Z.ltb_spec y 0), (Z.ltb_spec y' 0); try done; lia.
Qed.

Lemma iso_fields_inj y mo d h mi s ms y' mo' d' h' mi' s' ms' :
  -999999 <= y <= 999999 -> -999999 <= y' <= 999999 ->
  0 <= mo < 100 -> 0 <= mo' < 100 -> 0 <= d < 100 -> 0 <= d' < 100 ->
  0 <= h < 100 -> 0 <= h' < 100 -> 0 <= mi < 100 -> 0 <= mi' < 100 ->
  0 <= s < 100 -> 0 <= s' < 100 -> 0 <= ms < 1000 -> 0 <= ms' < 1000 ->
  iso_fields y mo d h mi s ms = iso_fields y' mo' d' h' mi' s' ms' ->
  y = y' /\ mo = mo' /\ d = d' /\ h = h' /\ mi = mi' /\ s = s' /\ ms = ms'.
Proof.
  intros Hy Hy' Hmo Hmo' Hd Hd' Hh Hh' Hmi Hmi' Hs Hs' Hms Hms' Heq.
  unfold iso_fields in Heq.
  apply app_inj_2 in Heq as [Hyear Heq];
    [|by rewrite !length_app, !digits_length].
  apply year_string_inj in Hyear; [|done..].
  apply app_inj_1 in Heq as [_ Heq]; [|done].
  apply app_inj_1 in Heq as [Hmo_eq Heq]; [|by rewrite !digits_length].
  apply app_inj_1 in Heq as [_ Heq]; [|done].
  apply app_inj_1 in Heq as [Hd_eq Heq]; [|by rewrite !digits_length].
  apply app_inj_1 in Heq as [_ Heq]; [|done].
  apply app_inj_1 in Heq as [Hh_eq Heq]; [|by rewrite !digits_length].
  apply app_inj_1 in Heq as [_ Heq]; [|done].
  apply app_inj_1 in Heq as [Hmi_eq Heq]; [|by rewrite !digits_length].
  apply app_inj_1 in Heq as [_ Heq]; [|done].
  apply app_inj_1 in Heq as [Hs_eq Heq]; [|by rewrite !digits_length].
  apply app_inj_1 in Heq as [_ Heq]; [|done].
  apply app_inj_1 in Heq as [Hms_eq _]; [|by rewrite !digits_length].
  apply (digits_inj 2) in Hmo_eq, Hd_eq, Hh_eq, Hmi_eq, Hs_eq; [|simpl; lia..].
  apply (digits_inj 3) in Hms_eq; [|simpl; lia..].
  done.
Qed.

Lemma denotes_instant_unique text t t' :
  denotes_instant text t -> denotes_instant text t' -> t = t'.
Proof.
  intros (y & mo & d & h & mi & s & ms & -> & _ & Hy & Hmo & Hd & Hh & Hmi & Hs & Hms & ->).
  intros (y' & mo' & d' & h' & mi' & s' & ms' & Heq & _ & Hy' & Hmo' & Hd' & Hh' & Hmi'
          & Hs' & Hms' & ->).
  apply iso_fields_inj in Heq as (-> & -> & -> & -> & -> & -> & ->); [done|lia..].
Qed.

(** The text of [toISOString] names the instant it renders and no other. *)
Lemma iso_format_denotes_iff t t' :
  valid_time t -> denotes_instant (iso_format t) t' <-> t' = t.
Proof.
  intros Hvalid. split.
  - intros H. apply (denotes_instant_unique _ _ _ H). by apply iso_format_denotes.
  - intros ->. by apply iso_format_denotes.
Qed.

(** ** Doubles *)

Example thresholdMs_60_3 : thresholdMs config_60_3 = 240000.
Proof. reflexivity. Qed.

Example thresholdMs_range : thresholdMs config_range_1 = 17280000000000000.
Proof. reflexivity. Qed.

Example round_double_tie_up : round_double 17279999999999999 = 17280000000000000.
Proof. reflexivity. Qed.

Example round_double_tie_down : round_double (2 ^ 53 + 1) = 2 ^ 53.
Proof. reflexivity. Qed.

Example round_double_above_tie : round_double (2 ^ 54 + 3) = 2 ^ 54 + 4.
Proof. reflexivity. Qed.

Example round_double_negative : round_double (- 2 ^ 53 - 3) = - 2 ^ 53 - 4.
Proof. reflexivity. Qed.

Lemma round_double_small x : Z.abs x < 2 ^ 53 -> round_double x = x.
Proof.
  intros Hx. unfold round_double.
  destruct (Z.leb_spec (Z.log2 (Z.abs x) - 52) 0) as [|Hk]; [done|].
  exfalso.
  destruct (Z.eq_dec (Z.abs x) 0) as [E|]; [rewrite E in Hk; simpl in Hk; lia|].
  assert (Z.log2 (Z.abs x) < 53); [|lia].
  apply Z.log2_lt_pow2; lia.
Qed.

(** An integer of more than 53 bits lies between 2^52 and 2^53 units of its
    last place. *)
Lemma binade x :
  let k := Z.log2 (Z.abs x) - 52 in
  0 < k -> 0 < 2 ^ k /\ 2 ^ 52 * 2 ^ k <= Z.abs x < 2 ^ 53 * 2 ^ k.
Proof.
  intros k Hk.
  assert (0 < Z.abs x).
  { destruct (Z.eq_dec (Z.abs x) 0) as [E|]; [|lia].
    subst k. rewrite E in Hk. simpl in Hk. lia. }
  pose proof (Z.log2_spec (Z.abs x) ltac:(lia)) as Hspec.
  replace (Z.log2 (Z.abs x)) with (52 + k) in Hspec by (subst k; lia).
  replace (Z.succ (52 + k)) with (53 + k) in Hspec by lia.
  rewrite !Z.pow_add_r in Hspec by lia.
  split; [apply Z.pow_pos_nonneg; lia|lia].
Qed.

(** The rounded number is a multiple of the unit, half a unit away at
    most. *)
Lemma round_double_near x :
  let k := Z.log2 (Z.abs x) - 52 in
  0 < k ->
  exists m, round_double x = m * 2 ^ k /\ 2 * Z.abs (round_double x - x) <= 2 ^ k.
Proof.
  intros k Hk. unfold round_double. fold k.
  destruct (Z.leb_spec k 0) as [|_]; [lia|].
  destruct (binade x Hk) as [Hulp _]. fold k in Hulp.
  set (ulp := 2 ^ k) in *.
  pose proof (Z.div_mod x ulp ltac:(lia)) as Hdm.
  pose proof (Z.mod_pos_bound x ulp Hulp) as Hr.
  destruct (Z.ltb_spec (2 * (x mod ulp)) ulp).
  { exists (x / ulp). split; [done|]. lia. }
  destruct (Z.ltb_spec ulp (2 * (x mod ulp))).
  { exists (x / ulp + 1). split; [done|]. lia. }
  destruct (Z.even (x / ulp)).
  - exists (x / ulp). split; [done|]. lia.
  - exists (x / ulp + 1). split; [done|]. lia.
Qed.

(** A multiple of [2 ^ j] that has [53 + j] bits or fewer is a double. *)
Lemma round_double_multiple x j :
  0 <= j -> Z.log2 (Z.abs x) - 52 <= j -> (2 ^ j | x) -> round_double x = x.
Proof.
  intros Hj Hk [q Hq]. unfold round_double.
  destruct (Z.leb_spec (Z.log2 (Z.abs x) - 52) 0) as [|Hpos]; [done|].
  destruct (binade x Hpos) as [Hulp _].
  set (k := Z.log2 (Z.abs x) - 52) in *.
  assert (Hdiv : x = (q * 2 ^ (j - k)) * 2 ^ k).
  { rewrite <- Z.mul_assoc, <- Z.pow_add_r by lia. by replace (j - k + k) with j by lia. }
  assert (x mod 2 ^ k = 0) as -> by (rewrite Hdiv; apply Z.mod_mul; lia).
  assert (x / 2 ^ k * 2 ^ k = x) as ->.
  { rewrite Hdiv at 1. rewrite Z.div_mul by lia. by rewrite <- Hdiv. }
  destruct (Z.ltb_spec (2 * 0) (2 ^ k)); [done|lia].
Qed.

Lemma round_double_exact x : Z.abs x <= 2 ^ 53 -> round_double x = x.
Proof.
  intros Hx. destruct (Z.eq_dec (Z.abs x) (2 ^ 53)) as [E|].
  - apply (round_double_multiple x 1); [lia| |].
    + rewrite E. by vm_compute.
    + exists (x / 2). destruct (Z.abs_spec x) as [[_ Ha]|[_ Ha]]; rewrite Ha in E.
      * by rewrite E.
      * replace x with (- 2 ^ 53) by lia. by vm_compute.
  - apply round_double_small. lia.
Qed.

(** Rounding does not leave the binade: at least [j] bits stay [j] bits. *)
Lemma round_double_large x j :
  53 <= j -> 2 ^ j <= Z.abs x -> 2 ^ j <= Z.abs (round_double x).
Proof.
  intros Hj Hx.
  assert (Hlog : j <= Z.log2 (Z.abs x)).
  { apply Z.log2_le_pow2; [|done].
    pose proof (Z.pow_pos_nonneg 2 j). lia. }
  assert (Hk : 0 < Z.log2 (Z.abs x) - 52) by lia.
  destruct (binade x Hk) as [Hulp Hb].
  destruct (round_double_near x Hk) as (m & -> & Hnear).
  set (k := Z.log2 (Z.abs x) - 52) in *.
  assert (Hjk : 2 ^ j <= 2 ^ 52 * 2 ^ k).
  { rewrite <- Z.pow_add_r by lia. apply Z.pow_le_mono_r; lia. }
  assert (2 <= 2 ^ k).
  { change 2 with (2 ^ 1) at 1. apply Z.pow_le_mono_r; lia. }
  assert (2 ^ 52 <= Z.abs m); [|rewrite Z.abs_mul; nia].
  assert (2 ^ 52 * 2 ^ k - 2 ^ k < Z.abs (m * 2 ^ k)) by lia.
  rewrite Z.abs_mul in *. nia.
Qed.

Lemma round_double_nonneg x : 0 <= x -> 0 <= round_double x.
Proof.
  intros Hx. unfold round_double.
  destruct (Z.leb_spec (Z.log2 (Z.abs x) - 52) 0) as [|Hk]; [done|].
  destruct (binade x Hk) as [Hulp _].
  set (ulp := 2 ^ (Z.log2 (Z.abs x) - 52)) in *.
  pose proof (Z.div_pos x ulp Hx Hulp).
  repeat case_match; nia.
Qed.

Lemma round_double_nonpos x : x <= 0 -> round_double x <= 0.
Proof.
  intros Hx. unfold round_double.
  destruct (Z.leb_spec (Z.log2 (Z.abs x) - 52) 0) as [|Hk]; [done|].
  destruct (binade x Hk) as [Hulp Hb].
  set (ulp := 2 ^ (Z.log2 (Z.abs x) - 52)) in *.
  pose proof (Z.div_mod x ulp ltac:(lia)) as Hdm.
  pose proof (Z.mod_pos_bound x ulp Hulp) as Hr.
  assert (x / ulp + 1 <= 0) by nia.
  repeat case_match; nia.
Qed.

(** Rounding keeps the sign. *)
Lemma round_double_sign x : Z.sgn (round_double x) = Z.sgn x.
Proof.
  destruct (Z.lt_ge_cases (Z.abs x) (2 ^ 53)) as [Hsmall|Hbig].
  { by rewrite round_double_small. }
  pose proof (round_double_large x 53 ltac:(lia) Hbig) as Hlarge.
  destruct (Z.le_gt_cases x 0) as [Hneg|Hpos].
  - pose proof (round_double_nonpos x Hneg). lia.
  - pose proof (round_double_nonneg x ltac:(lia)). lia.
Qed.

(** Up to a threshold of 2^53 the comparison of a gap with the threshold is
    the exact one. *)
Lemma gap_comparison_exact threshold gap :
  0 <= gap -> threshold <= 2 ^ 53 ->
  threshold <= round_double gap <-> threshold <= gap.
Proof.
  intros Hgap Hthr. destruct (Z.le_gt_cases gap (2 ^ 53)) as [Hle|Hgt].
  - rewrite round_double_exact; [done|lia].
  - pose proof (round_double_large gap 53 ltac:(lia) ltac:(lia)).
    pose proof (round_double_nonneg gap Hgap). lia.
Qed.

(** Up to 2^53 the threshold of the code is the one of the specification,
    in milliseconds. *)
Lemma thresholdMs_exact config :
  Z.abs (thresholdSeconds config * 1000) <= 2 ^ 53 ->
  thresholdMs config = thresholdSeconds config * 1000.
Proof.
  unfold thresholdMs, thresholdSeconds. intros Hthr.
  destruct (Z.eq_dec (expected_interval_seconds config) 0) as [->|He].
  { by rewrite !Z.mul_0_l. }
  rewrite (round_double_exact (allowed_misses config + 1)) by nia.
  rewrite (round_double_exact (expected_interval_seconds config * _)) by lia.
  by apply round_double_exact.
Qed.

(** From the time value [t] of a date, the sum [t + e * 1000] taken in
    doubles, product first, gives a [Date] the text or the [RangeError] of
    the exact sum. *)
Lemma alert_instant_in_doubles t e :
  valid_time t ->
  Date_toISOString (round_double (t + round_double (e * 1000)))
  = Date_toISOString (t + e * 1000).
Proof.
  unfold valid_time, max_time. intros Ht.
  assert (Hout : forall x, 2 ^ 53 <= Z.abs x -> Date_toISOString x = Throws RangeError).
  { intros x Hx. unfold Date_toISOString, TimeClip.
    destruct (valid_timeb x) eqn:E; [|done].
    apply valid_timeb_spec in E. unfold valid_time, max_time in E. lia. }
  destruct (Z.lt_ge_cases (Z.abs (e * 1000)) (2 ^ 56)) as [Hsmall|Hbig].
  - rewrite (round_double_multiple (e * 1000) 3); [|lia| |].
    + destruct (Z.lt_ge_cases (Z.abs (t + e * 1000)) (2 ^ 53)).
      * by rewrite round_double_small.
      * rewrite !Hout; [done|done|]. by apply round_double_large.
    + destruct (Z.eq_dec (Z.abs (e * 1000)) 0) as [E|]; [by rewrite E|].
      assert (Z.log2 (Z.abs (e * 1000)) < 56); [|lia].
      apply Z.log2_lt_pow2; lia.
    + exists (e * 125). lia.
  - pose proof (round_double_large (e * 1000) 56 ltac:(lia) Hbig).
    rewrite !Hout; [done|lia|].
    apply round_double_large; lia.
Qed.

(** ** The scan for the first gap *)

Lemma alerting_gap_lookup config sorted i current next :
  sorted !! i = Some current -> sorted !! (i + 1)%nat = Some next ->
  alerting_gap config sorted i <->
  thresholdMs config <= round_double (timestamp next - timestamp current).
Proof.
  intros Hc Hn. rewrite Nat.add_1_r in Hn. split.
  - intros (c & x & Hc' & Hx' & Hgap). by simplify_eq.
  - intros Hgap. by exists current, next.
Qed.

Lemma alerting_gap_lt config sorted i :
  alerting_gap config sorted i -> (S i < length sorted)%nat.
Proof. intros (c & x & _ & Hx & _). by eapply lookup_lt_Some. Qed.


(** The loop returns the alert of the first pair at or after [i] for which
    its comparison holds, or none when it holds for none of the [n] pairs
    from [i] on. *)
Lemma scan_loop_spec sorted config n i :
  (exists j current,
      (i <= j < i + n)%nat /\ sorted !! j = Some current
      /\ alerting_gap config sorted j
      /\ (forall k, (i <= k < j)%nat -> ~ alerting_gap config sorted k)
      /\ scan_loop sorted config n i
         = (let* alert := make_alert current config in Normal (Some alert)))
  \/ ((forall k, (i <= k < i + n)%nat -> ~ alerting_gap config sorted k)
      /\ scan_loop sorted config n i = Normal None).
Proof.
  revert i. induction n as [|n IH]; intros i; simpl.
  { right. split; [lia|done]. }
  assert (Hnext : ~ alerting_gap config sorted i ->
    (exists j current,
      (i <= j < i + S n)%nat /\ sorted !! j = Some current
      /\ alerting_gap config sorted j
      /\ (forall k, (i <= k < j)%nat -> ~ alerting_gap config sorted k)
      /\ scan_loop sorted config n (i + 1)
         = (let* alert := make_alert current config in Normal (Some alert)))
    \/ ((forall k, (i <= k < i + S n)%nat -> ~ alerting_gap config sorted k)
        /\ scan_loop sorted config n (i + 1) = Normal None)).
  { intros Hi. destruct (IH (i + 1)%nat) as [(j & c & Hj & Hc & Hq & Hfirst & E)|[Hnone E]].
    - left. exists j, c. repeat split; [lia|lia|done|done| |done].
      intros k Hk. destruct (decide (k = i)) as [->|]; [done|]. apply Hfirst. lia.
    - right. split; [|done].
      intros k Hk. destruct (decide (k = i)) as [->|]; [done|]. apply Hnone. lia. }
  destruct (sorted !! i) as [current|] eqn:Hc.
  - destruct (sorted !! (i + 1)%nat) as [next|] eqn:Hn.
    + pose proof (alerting_gap_lookup config _ _ _ _ Hc Hn) as Hq.
      destruct (Z.leb_spec (thresholdMs config)
                  (round_double (timestamp next - timestamp current))).
      * left. exists i, current. repeat split; [lia|lia|done|by apply Hq|lia].
      * apply Hnext. rewrite Hq. lia.
    + apply Hnext. intros (c & x & _ & Hx & _). rewrite Nat.add_1_r in Hn. congruence.
  - apply Hnext. intros (c & x & Hc' & _). congruence.
Qed.

(** What [analyseServiceHeartbeats] returns for two records or more, in
    terms of the sorted copy it scans. *)
Lemma analyse_spec heartbeats config :
  (2 <= length heartbeats)%nat ->
  let sorted := array_sort by_timestamp heartbeats in
  (exists i current,
      first_alerting_gap config sorted i current
      /\ analyseServiceHeartbeats heartbeats config
         = (let* alert := make_alert current config in Normal (Some alert)))
  \/ ((forall k, ~ alerting_gap config sorted k)
      /\ analyseServiceHeartbeats heartbeats config = Normal None).
Proof.
  intros Hlen sorted. unfold analyseServiceHeartbeats.
  destruct (Nat.ltb_spec (length heartbeats) 2) as [|_]; [lia|].
  fold sorted.
  destruct (scan_loop_spec sorted config (length sorted - 1) 0)
    as [(j & c & Hj & Hc & Hq & Hfirst & E)|[Hnone E]].
  - left. exists j, c. split; [|done].
    repeat split; [done|done|]. intros k Hk. apply Hfirst. lia.
  - right. split; [|done].
    intros k Hk. apply (Hnone k); [|done].
    apply alerting_gap_lt in Hk. lia.
Qed.

Lemma analyse_short heartbeats config :
  (length heartbeats < 2)%nat -> analyseServiceHeartbeats heartbeats config = Normal None.
Proof.
  intros Hlen. unfold analyseServiceHeartbeats.
  by destruct (Nat.ltb_spec (length heartbeats) 2) as [_|]; [|lia].
Qed.

(** The first position of a kind is unique. *)
Lemma first_alerting_gap_unique config sorted i j ci cj :
  first_alerting_gap config sorted i ci ->
  first_alerting_gap config sorted j cj -> i = j /\ ci = cj.
Proof.
  intros (Hi & Hqi & Hfi) (Hj & Hqj & Hfj).
  assert (i = j) as ->.
  { destruct (Nat.lt_trichotomy i j) as [Hlt|[->|Hlt]]; [|done|].
    - by destruct (Hfj _ Hlt).
    - by destruct (Hfi _ Hlt). }
  split; [done|congruence].
Qed.


(** The instant of the alert is a valid time value whenever the gap
    qualifies under a well-formed configuration: it lies between the two
    records of the gap. *)
Lemma alert_instant_valid config sorted i current :
  well_formed_config config ->
  Forall valid_record sorted ->
  sorted !! i = Some current -> qualifying_gap config sorted i ->
  valid_time (timestamp current + expected_interval_seconds config * 1000).
Proof.
  intros [He Hm] Hvalid Hc (c & x & Hc' & Hx & Hgap).
  rewrite Hc in Hc'. injection Hc' as <-.
  rewrite Forall_forall in Hvalid.
  destruct (Hvalid current) as (_ & _ & Hvc); [by eapply list_elem_of_lookup_2|].
  destruct (Hvalid x) as (_ & _ & Hvx); [by eapply list_elem_of_lookup_2|].
  unfold valid_time, thresholdSeconds in *.
  assert (expected_interval_seconds config * 1000
          <= expected_interval_seconds config * (allowed_misses config + 1) * 1000) by nia.
  lia.
Qed.

(** So [toISOString] cannot throw there. *)
Lemma make_alert_normal config sorted i current :
  well_formed_config config ->
  Forall valid_record sorted ->
  sorted !! i = Some current -> qualifying_gap config sorted i ->
  make_alert current config
  = Normal {| alert_service := service current;
              alert_at := iso_format (timestamp current
                                      + expected_interval_seconds config * 1000) |}.
Proof.
  intros Hcfg Hvalid Hc Hq. unfold make_alert.
  by rewrite Date_toISOString_valid by (by eapply alert_instant_valid).
Qed.

(** Under a well-formed configuration a qualifying gap has a positive
    width, and the records after it are later than the one before it. *)
Lemma sorted_lookup_le sorted i j a b :
  Sorted time_le sorted -> (i <= j)%nat ->
  sorted !! i = Some a -> sorted !! j = Some b -> timestamp a <= timestamp b.
Proof.
  intros Hsorted. apply Sorted_StronglySorted in Hsorted; [|apply _].
  revert i j. induction Hsorted as [|x l Hl IH Hx]; intros i j Hij Ha Hb; [done|].
  destruct i as [|i], j as [|j]; simpl in *.
  - assert (a = b) as -> by congruence. lia.
  - injection Ha as <-. rewrite Forall_forall in Hx.
    apply (Hx b). by eapply list_elem_of_lookup_2.
  - lia.
  - apply (IH i j); [lia|done..].
Qed.


(** In a chronological list, and up to a threshold of 2^53 ms in magnitude,
    the comparison of the loop holds for the qualifying gaps and for no
    other. *)
Lemma alerting_gap_qualifying config sorted i :
  Sorted time_le sorted ->
  Z.abs (thresholdSeconds config * 1000) <= 2 ^ 53 ->
  alerting_gap config sorted i <-> qualifying_gap config sorted i.
Proof.
  intros Hsorted Hthr. unfold alerting_gap, qualifying_gap.
  rewrite (thresholdMs_exact config Hthr).
  assert (Hbound : thresholdSeconds config * 1000 <= 2 ^ 53) by lia.
  split; intros (c & x & Hc & Hx & Hgap); exists c, x; (split; [done|split; [done|]]);
    pose proof (sorted_lookup_le sorted i (S i) c x Hsorted ltac:(lia) Hc Hx) as Hle;
    unfold time_le in Hle;
    assert (Hwidth : 0 <= timestamp x - timestamp c) by lia;
    by apply (gap_comparison_exact _ _ Hwidth Hbound).
Qed.

Lemma first_alerting_gap_qualifying config sorted i current :
  Sorted time_le sorted ->
  Z.abs (thresholdSeconds config * 1000) <= 2 ^ 53 ->
  first_alerting_gap config sorted i current <-> first_qualifying_gap config sorted i current.
Proof.
  intros Hsorted Hthr. unfold first_alerting_gap, first_qualifying_gap.
  rewrite (alerting_gap_qualifying config sorted i Hsorted Hthr).
  split; intros (Hc & Hq & Hfirst); (split; [done|split; [done|]]); intros k Hk.
  - rewrite <- (alerting_gap_qualifying config sorted k Hsorted Hthr). by apply Hfirst.
  - rewrite (alerting_gap_qualifying config sorted k Hsorted Hthr). by apply Hfirst.
Qed.

(** An alert that is returned comes from the first pair of the sorted copy
    for which the comparison of the loop holds. *)
Lemma analyse_Some heartbeats config alert :
  analyseServiceHeartbeats heartbeats config = Normal (Some alert) ->
  exists i current,
    first_alerting_gap config (array_sort by_timestamp heartbeats) i current
    /\ alert_service alert = service current
    /\ alert_at alert
       = iso_format (timestamp current + expected_interval_seconds config * 1000)
    /\ valid_time (timestamp current + expected_interval_seconds config * 1000).
Proof.
  intros Hresult.
  destruct (Nat.lt_ge_cases (length heartbeats) 2) as [Hshort|Hlen].
  { by rewrite analyse_short in Hresult. }
  destruct (analyse_spec heartbeats config Hlen) as [(i & c & Hfirst & E)|[Hnone E]];
    [|congruence].
  exists i, c. split; [done|].
  rewrite E in Hresult. unfold make_alert in Hresult.
  destruct (Date_toISOString _) as [text|] eqn:Htext; [|done].
  simpl in Hresult. injection Hresult as <-. simpl.
  by apply Date_toISOString_Normal in Htext as [-> ?].
Qed.

(** ** The gap detector *)


Lemma valid_records_sorted heartbeats sorted :
  Forall valid_record heartbeats -> sorted ≡ₚ heartbeats -> Forall valid_record sorted.
Proof. intros H Hp. by rewrite Hp. Qed.

(** The detector on a chronological list of one service, in one statement:
    the alert of the first qualifying gap, or none, as long as the threshold
    is 2^53 ms at most. *)
Lemma analyse_chronological s heartbeats sorted config :
  single_service s heartbeats -> chronological heartbeats sorted ->
  (2 <= length heartbeats)%nat ->
  Z.abs (thresholdSeconds config * 1000) <= 2 ^ 53 ->
  (exists i current,
      first_qualifying_gap config sorted i current
      /\ analyseServiceHeartbeats heartbeats config
         = (let* alert := make_alert current config in Normal (Some alert)))
  \/ ((forall k, ~ qualifying_gap config sorted k)
      /\ analyseServiceHeartbeats heartbeats config = Normal None).
Proof.
  intros Hs Hchrono Hlen Hthr.
  pose proof (proj2 Hchrono) as Hsorted.
  rewrite (chronological_unique s heartbeats sorted Hs Hchrono) in *.
  destruct (analyse_spec heartbeats config Hlen) as [(i & c & Hfirst & E)|[Hnone E]].
  - left. exists i, c. split; [|done]. by apply first_alerting_gap_qualifying.
  - right. split; [|done]. intros k Hk. apply (Hnone k).
    by apply alerting_gap_qualifying.
Qed.





(** C1: for at least two records of one service, valid time values and a
    configuration of two integers, with a positive interval, non-negative
    misses and a threshold of 2^53 ms at most, the detector emits an alert
    exactly when two records next to each other in chronological order are
    at least [thresholdSeconds] (times 1000, in milliseconds) apart.  A gap
    equal to the threshold gives an alert; when every gap is one millisecond
    below the threshold or less, the result is none. *)
Theorem C1_alert_iff_gap_reaches_threshold s heartbeats sorted config :
  single_service s heartbeats ->
  (2 <= length heartbeats)%nat ->
  Forall valid_record heartbeats ->
  well_formed_config config ->
  thresholdSeconds config * 1000 <= 2 ^ 53 ->
  chronological heartbeats sorted ->
  ((exists alert, analyseServiceHeartbeats heartbeats config = Normal (Some alert))
   <-> exists i, qualifying_gap config sorted i)
  /\ (forall i current next,
        sorted !! i = Some current -> sorted !! S i = Some next ->
        timestamp next - timestamp current = thresholdSeconds config * 1000 ->
        exists alert, analyseServiceHeartbeats heartbeats config = Normal (Some alert))
  /\ ((forall i current next,
        sorted !! i = Some current -> sorted !! S i = Some next ->
        timestamp next - timestamp current <= thresholdSeconds config * 1000 - 1) ->
      analyseServiceHeartbeats heartbeats config = Normal None).
Proof.
  intros Hs Hlen Hvalid Hcfg Hbound Hchrono.
  pose proof (valid_records_sorted _ _ Hvalid (proj1 Hchrono)) as Hvs.
  assert (Hthr : Z.abs (thresholdSeconds config * 1000) <= 2 ^ 53).
  { destruct Hcfg as [He Hm]. unfold thresholdSeconds in *. nia. }
  assert (Hiff : (exists alert, analyseServiceHeartbeats heartbeats config = Normal (Some alert))
                 <-> exists i, qualifying_gap config sorted i).
  { destruct (analyse_chronological s heartbeats sorted config Hs Hchrono Hlen Hthr)
      as [(i & c & (Hc & Hq & Hfirst) & E)|[Hnone E]].
    - rewrite E, (make_alert_normal config sorted i c Hcfg Hvs Hc Hq). simpl.
      split; eauto.
    - rewrite E. split.
      + by intros [a [=]].
      + intros [i Hq]. by destruct (Hnone i). }
  split; [exact Hiff|]. split.
  - intros i c x Hc Hx Hgap. apply Hiff. exists i, c, x. repeat split; [done|done|lia].
  - intros Hbelow.
    destruct (analyse_chronological s heartbeats sorted config Hs Hchrono Hlen Hthr)
      as [(i & c & (Hc & Hq & Hfirst) & E)|[Hnone E]]; [|done].
    destruct Hq as (c' & x & Hc' & Hx & Hgap).
    specialize (Hbelow i c' x Hc' Hx). lia.
Qed.

(** C2: an alert the detector emits carries the service of the earlier
    record of the first pair of the chronological list whose gap, as the
    code computes it in doubles, reaches the threshold the code computes;
    up to a threshold of 2^53 ms in magnitude this is the first qualifying
    gap.  Its [alert_at] is the [toISOString] text of that record's time
    value plus [expected_interval_seconds] (times 1000, in milliseconds), a
    text that names this instant and no other, however wide the gap is. *)
Theorem C2_alert_at_first_missed_beat s heartbeats sorted config alert :
  single_service s heartbeats ->
  chronological heartbeats sorted ->
  analyseServiceHeartbeats heartbeats config = Normal (Some alert) ->
  exists i current,
    first_alerting_gap config sorted i current
    /\ (Z.abs (thresholdSeconds config * 1000) <= 2 ^ 53 ->
        first_qualifying_gap config sorted i current)
    /\ alert_service alert = service current
    /\ Date_toISOString (timestamp current + expected_interval_seconds config * 1000)
       = Normal (alert_at alert)
    /\ (forall t, denotes_instant (alert_at alert) t
                  <-> t = timestamp current + expected_interval_seconds config * 1000).
Proof.
  intros Hs Hchrono Hresult.
  pose proof (proj2 Hchrono) as Hsorted.
  rewrite (chronological_unique s heartbeats sorted Hs Hchrono) in *.
  destruct (analyse_Some _ _ _ Hresult) as (i & current & Hfirst & Hsvc & Hat & Hvalid).
  exists i, current. split; [done|]. split; [|split; [done|split]].
  - intros Hthr. by apply first_alerting_gap_qualifying.
  - by rewrite Date_toISOString_valid, Hat.
  - intros t. rewrite Hat. by apply iso_format_denotes_iff.
Qed.


(** C4: on no record or one record the detector returns none, whatever the
    configuration, and does not throw. *)
Theorem C4_fewer_than_two_records_no_alert heartbeats config :
  (length heartbeats < 2)%nat ->
  analyseServiceHeartbeats heartbeats config = Normal None.
Proof. apply analyse_short. Qed.

(** ** The grouper *)

Section MapFacts.
Context {V : Type}.
Implicit Types (m : js_map jsstring V) (k : jsstring) (v : V).

Lemma map_get_None m k : map_get k m = None <-> k ∉ m.*1.
Proof.
  induction m as [|[k' v'] m IH]; simpl.
  - split; [intros _; apply not_elem_of_nil|done].
  - rewrite not_elem_of_cons. destruct (decide (k' = k)) as [->|Hne].
    + split; [done|]. by intros [? _].
    + rewrite IH. split; [by intros; split|by intros [_ ?]].
Qed.

Lemma map_get_Some_elem_of m k v : map_get k m = Some v -> (k, v) ∈ m.
Proof.
  induction m as [|[k' v'] m IH]; simpl; [done|].
  destruct (decide (k' = k)) as [->|Hne].
  - intros [= ->]. apply list_elem_of_here.
  - intros H. apply list_elem_of_further. by apply IH.
Qed.

Lemma elem_of_map_get m k v : NoDup m.*1 -> (k, v) ∈ m -> map_get k m = Some v.
Proof.
  induction m as [|[k' v'] m IH]; simpl.
  - intros _ H. by apply elem_of_nil in H.
  - rewrite NoDup_cons. intros [Hk' Hnd] H.
    apply elem_of_cons in H as [[= -> ->]|H].
    + by rewrite decide_True.
    + rewrite decide_False; [by apply IH|].
      intros ->. apply Hk'. apply list_elem_of_fmap. by exists (k, v).
Qed.

Lemma map_get_set_eq m k v : map_get k (map_set k v m) = Some v.
Proof.
  induction m as [|[k' v'] m IH]; simpl.
  - by rewrite decide_True.
  - destruct (decide (k' = k)) as [->|Hne]; simpl.
    + by rewrite decide_True.
    + by rewrite decide_False.
Qed.

Lemma map_get_set_ne m k k' v : k <> k' -> map_get k' (map_set k v m) = map_get k' m.
Proof.
  intros Hne. induction m as [|[k0 v0] m IH]; simpl.
  - by rewrite decide_False.
  - destruct (decide (k0 = k)) as [->|Hne0]; simpl.
    + by rewrite !decide_False.
    + by rewrite IH.
Qed.

Lemma map_set_keys_present m k v :
  k ∈ m.*1 -> (map_set k v m).*1 = m.*1.
Proof.
  induction m as [|[k0 v0] m IH]; simpl.
  - intros H. by apply elem_of_nil in H.
  - intros H. destruct (decide (k0 = k)) as [->|Hne0]; simpl; [done|].
    f_equal. apply IH. apply elem_of_cons in H as [->|H]; done.
Qed.

Lemma map_set_absent m k v : k ∉ m.*1 -> map_set k v m = m ++ [(k, v)].
Proof.
  induction m as [|[k0 v0] m IH]; simpl; [done|].
  rewrite not_elem_of_cons. intros [Hne H].
  rewrite decide_False by done. by rewrite IH.
Qed.

Lemma map_set_NoDup m k v : NoDup m.*1 -> NoDup (map_set k v m).*1.
Proof.
  intros Hnd. destruct (decide (k ∈ m.*1)) as [Hin|Hout].
  - by rewrite map_set_keys_present.
  - rewrite map_set_absent, fmap_app by done. simpl.
    apply NoDup_app. split; [done|]. split; [|apply NoDup_singleton].
    intros k' Hk' ->%list_elem_of_singleton. done.
Qed.
End MapFacts.

Lemma group_snoc heartbeats r :
  groupHeartbeatsByService (heartbeats ++ [r])
  = group_step (groupHeartbeatsByService heartbeats) r.
Proof. unfold groupHeartbeatsByService. by rewrite foldl_app. Qed.

Lemma records_of_absent k heartbeats :
  k ∉ service <$> heartbeats -> records_of k heartbeats = [].
Proof.
  unfold records_of. induction heartbeats as [|r l IH]; [done|].
  rewrite fmap_cons, not_elem_of_cons. intros [Hne Hout].
  rewrite filter_cons_False by done. by apply IH.
Qed.

Lemma records_of_snoc k heartbeats r :
  records_of k (heartbeats ++ [r])
  = records_of k heartbeats ++ (if decide (service r = k) then [r] else []).
Proof. unfold records_of. by rewrite filter_app, filter_singleton. Qed.

(** The group under a key holds the records of that key, in input order;
    a key is present exactly when a record bears it. *)
Lemma group_get heartbeats k :
  map_get k (groupHeartbeatsByService heartbeats)
  = if decide (k ∈ service <$> heartbeats) then Some (records_of k heartbeats) else None.
Proof.
  induction heartbeats as [|r l IH] using rev_ind.
  - destruct (decide (k ∈ service <$> [])) as [H%elem_of_nil|]; done.
  - rewrite group_snoc, records_of_snoc, fmap_app. unfold group_step. simpl.
    destruct (decide (service r = k)) as [<-|Hne].
    + rewrite map_get_set_eq.
      rewrite decide_True by (apply elem_of_app; right; apply list_elem_of_here).
      do 2 f_equal. rewrite IH.
      destruct (decide (service r ∈ service <$> l)) as [Hin|Hout]; simpl; [done|].
      by rewrite records_of_absent.
    + rewrite map_get_set_ne, IH, app_nil_r by done.
      destruct (decide (k ∈ service <$> l)) as [Hin|Hout].
      * rewrite decide_True; [done|]. apply elem_of_app. by left.
      * rewrite decide_False; [done|].
        rewrite elem_of_app, list_elem_of_singleton. intros [?|?]; done.
Qed.

Lemma group_NoDup heartbeats : NoDup (groupHeartbeatsByService heartbeats).*1.
Proof.
  induction heartbeats as [|r l IH] using rev_ind.
  - apply NoDup_nil_2.
  - rewrite group_snoc. by apply map_set_NoDup.
Qed.

Lemma group_keys heartbeats k :
  k ∈ (groupHeartbeatsByService heartbeats).*1 <-> k ∈ service <$> heartbeats.
Proof.
  pose proof (group_get heartbeats k) as Hget.
  pose proof (map_get_None (groupHeartbeatsByService heartbeats) k) as Hnone.
  destruct (decide (k ∈ service <$> heartbeats)) as [Hin|Hout].
  - split; [done|]. intros _.
    destruct (decide (k ∈ (groupHeartbeatsByService heartbeats).*1)) as [|Hk]; [done|].
    apply Hnone in Hk. congruence.
  - split; [|done]. intros Hk. apply Hnone in Hget. done.
Qed.

Lemma group_entry heartbeats k g :
  (k, g) ∈ groupHeartbeatsByService heartbeats ->
  g = records_of k heartbeats /\ k ∈ service <$> heartbeats.
Proof.
  intros Hin. apply elem_of_map_get in Hin; [|apply group_NoDup].
  rewrite group_get in Hin.
  destruct (decide (k ∈ service <$> heartbeats)); [|done].
  by injection Hin as <-.
Qed.

Lemma group_closed_form heartbeats :
  groupHeartbeatsByService heartbeats
  = (fun k => (k, records_of k heartbeats)) <$> (groupHeartbeatsByService heartbeats).*1.
Proof.
  pose proof (group_entry heartbeats) as Hentry.
  induction (groupHeartbeatsByService heartbeats) as [|[k g] m IH]; simpl; [done|].
  destruct (Hentry k g) as [-> _]; [apply list_elem_of_here|].
  f_equal. apply IH. intros k' g' H. apply Hentry. by apply list_elem_of_further.
Qed.

Lemma group_step_concat m r :
  concat (group_step m r).*2 ≡ₚ concat m.*2 ++ [r].
Proof.
  unfold group_step. induction m as [|[k g] m IH]; simpl; [done|].
  destruct (decide (k = service r)) as [->|Hne]; simpl.
  - rewrite <- !(assoc_L (++)). f_equiv. apply Permutation_app_comm.
  - by rewrite IH, (assoc_L (++)).
Qed.

Lemma group_concat heartbeats :
  concat (groupHeartbeatsByService heartbeats).*2 ≡ₚ heartbeats.
Proof.
  induction heartbeats as [|r l IH] using rev_ind; [done|].
  by rewrite group_snoc, group_step_concat, IH.
Qed.

Lemma elem_of_records_of k heartbeats r :
  r ∈ records_of k heartbeats <-> service r = k /\ r ∈ heartbeats.
Proof. unfold records_of. by rewrite list_elem_of_filter. Qed.

(** C7: grouping drops and duplicates no record (the groups put together
    are a permutation of the input), keeps one group per identifier, and the
    group under a key is made of the input records whose service is that very
    list of code units: two records share a group exactly when their services
    are equal. *)
Theorem C7_groups_partition_by_exact_service heartbeats :
  let groups := groupHeartbeatsByService heartbeats in
  concat groups.*2 ≡ₚ heartbeats
  /\ NoDup groups.*1
  /\ (forall k g, (k, g) ∈ groups -> g = records_of k heartbeats /\ g <> [])
  /\ (forall r, r ∈ heartbeats -> (service r, records_of (service r) heartbeats) ∈ groups)
  /\ (forall r1 r2, r1 ∈ heartbeats -> r2 ∈ heartbeats ->
        (exists k g, (k, g) ∈ groups /\ r1 ∈ g /\ r2 ∈ g) <-> service r1 = service r2).
Proof.
  simpl. split; [apply group_concat|]. split; [apply group_NoDup|].
  assert (Hin : forall r, r ∈ heartbeats ->
            (service r, records_of (service r) heartbeats) ∈ groupHeartbeatsByService heartbeats).
  { intros r Hr. apply map_get_Some_elem_of. rewrite group_get.
    rewrite decide_True; [done|]. apply list_elem_of_fmap. by exists r. }
  split; [|split; [exact Hin|]].
  - intros k g Hg. destruct (group_entry _ _ _ Hg) as [-> Hk]. split; [done|].
    apply list_elem_of_fmap in Hk as (r & -> & Hr).
    intros Hnil. assert (r ∈ records_of (service r) heartbeats) as Hr'.
    { by apply elem_of_records_of. }
    rewrite Hnil in Hr'. by apply elem_of_nil in Hr'.
  - intros r1 r2 H1 H2. split.
    + intros (k & g & Hg & Hr1 & Hr2).
      destruct (group_entry _ _ _ Hg) as [-> _].
      apply elem_of_records_of in Hr1 as [-> _].
      by apply elem_of_records_of in Hr2 as [-> _].
    + intros Heq. exists (service r1), (records_of (service r1) heartbeats).
      split; [by apply Hin|]. by rewrite !elem_of_records_of.
Qed.

(** ** The batch operation *)

Lemma bind_Normal {A} (c : completion A) : (let* x := c in Normal x) = c.
Proof. by destruct c. Qed.

Lemma collect_alerts_gather entries config alerts :
  collect_alerts entries config alerts
  = (let* found := gather ((fun e => analyseServiceHeartbeats e.2 config) <$> entries) in
     Normal (alerts ++ found)).
Proof.
  revert alerts. induction entries as [|[k g] entries IH]; intros alerts; simpl.
  - by rewrite app_nil_r.
  - destruct (analyseServiceHeartbeats g config) as [[a|]|e]; simpl; [| |done].
    + rewrite IH. destruct (gather _); simpl; [|done]. by rewrite <- (assoc_L (++)).
    + rewrite IH. by destruct (gather _).
Qed.

(** The run over the input is the run over its keys, each with the records
    that bear it. *)
Lemma analyseAll_gather heartbeats config :
  analyseAllHeartbeats heartbeats config
  = gather ((fun k => analyseServiceHeartbeats (records_of k heartbeats) config)
              <$> (groupHeartbeatsByService heartbeats).*1).
Proof.
  unfold analyseAllHeartbeats. rewrite collect_alerts_gather.
  rewrite group_closed_form at 1. rewrite <- !list_fmap_compose.
  simpl. by rewrite bind_Normal.
Qed.

Global Instance same_alert_set_trans : Transitive same_alert_set.
Proof.
  intros [a1|e1] [a2|e2] [a3|e3]; simpl; try done.
  - intros H1 H2. by rewrite H1.
  - congruence.
Qed.

Lemma gather_Permutation results results' :
  results ≡ₚ results' -> same_alert_set (gather results) (gather results').
Proof.
  induction 1 as [|r l l' Hp IH|r1 r2 l|l1 l2 l3 H12 IH12 H23 IH23].
  - by simpl.
  - simpl. destruct r as [o|e]; simpl; [|done].
    destruct (gather l), (gather l'); simpl in *; try done. by rewrite IH.
  - simpl. destruct r1 as [o1|[]], r2 as [o2|[]]; simpl; try done.
    destruct (gather l); simpl; [|done].
    rewrite !(assoc_L (++)). f_equiv. apply Permutation_app_comm.
  - by etrans.
Qed.

Lemma analyse_Permutation s heartbeats heartbeats' config :
  single_service s heartbeats -> heartbeats ≡ₚ heartbeats' ->
  analyseServiceHeartbeats heartbeats config = analyseServiceHeartbeats heartbeats' config.
Proof.
  intros Hs Hp. unfold analyseServiceHeartbeats.
  assert (array_sort by_timestamp heartbeats' = array_sort by_timestamp heartbeats) as ->.
  { apply (chronological_unique s); [done|].
    destruct (array_sort_chronological heartbeats') as [Hp' Hsorted].
    split; [by rewrite Hp', Hp|done]. }
  by rewrite (Permutation_length Hp).
Qed.

Lemma records_of_single_service k heartbeats : single_service k (records_of k heartbeats).
Proof.
  apply Forall_forall. intros r Hr. by apply elem_of_records_of in Hr as [? _].
Qed.

Lemma records_of_Permutation k heartbeats heartbeats' :
  heartbeats ≡ₚ heartbeats' -> records_of k heartbeats ≡ₚ records_of k heartbeats'.
Proof. intros Hp. unfold records_of. by rewrite Hp. Qed.

Lemma group_keys_Permutation heartbeats heartbeats' :
  heartbeats ≡ₚ heartbeats' ->
  (groupHeartbeatsByService heartbeats).*1 ≡ₚ (groupHeartbeatsByService heartbeats').*1.
Proof.
  intros Hp. apply NoDup_Permutation; [apply group_NoDup..|].
  intros k. rewrite !group_keys. by rewrite Hp.
Qed.

(** C5: on a permutation of the records the batch operation ends the same
    way, with the same alerts up to their order in the list, or with the same
    exception, for every configuration. *)
Theorem C5_alert_set_invariant_under_permutation heartbeats heartbeats' config :
  heartbeats ≡ₚ heartbeats' ->
  same_alert_set (analyseAllHeartbeats heartbeats config)
                 (analyseAllHeartbeats heartbeats' config).
Proof.
  intros Hp. rewrite !analyseAll_gather.
  apply gather_Permutation.
  rewrite <- (group_keys_Permutation _ _ Hp).
  erewrite (list_fmap_ext _
    (fun k => analyseServiceHeartbeats (records_of k heartbeats') config)); [done|].
  intros _ k _.
  apply (analyse_Permutation k); [apply records_of_single_service|].
  by apply records_of_Permutation.
Qed.

Lemma gather_cons_Normal r results alerts :
  gather (r :: results) = Normal alerts ->
  exists o rest, r = Normal o /\ gather results = Normal rest
                 /\ alerts = option_list o ++ rest.
Proof.
  simpl. destruct r as [o|e]; simpl; [|done].
  destruct (gather results) as [rest|e]; simpl; [|done].
  intros [= <-]. by exists o, rest.
Qed.

Lemma gather_elem_of results alerts a :
  gather results = Normal alerts -> a ∈ alerts <-> Normal (Some a) ∈ results.
Proof.
  revert alerts. induction results as [|r results IH]; intros alerts Hg.
  - injection Hg as <-. split; intros H; by apply elem_of_nil in H.
  - apply gather_cons_Normal in Hg as (o & rest & -> & Hrest & ->).
    rewrite elem_of_app, elem_of_cons, (IH rest Hrest).
    destruct o as [a'|]; simpl.
    + rewrite list_elem_of_singleton. split; intros [?|?]; try (by right); left; congruence.
    + split; [intros [H|?]; [by apply elem_of_nil in H|by right]|].
      intros [?|?]; [done|by right].
Qed.

(** The services of the alerts follow the keys, in order, when each group's
    alert bears the key of the group. *)
Lemma gather_services (f : jsstring -> completion (option Alert)) keys alerts :
  (forall k a, f k = Normal (Some a) -> alert_service a = k) ->
  gather (f <$> keys) = Normal alerts ->
  alert_service <$> alerts `sublist_of` keys.
Proof.
  intros Hf. revert alerts. induction keys as [|k keys IH]; intros alerts Hg.
  - by injection Hg as <-.
  - rewrite fmap_cons in Hg.
    apply gather_cons_Normal in Hg as (o & rest & Ho & Hrest & ->).
    rewrite fmap_app. destruct o as [a|]; simpl.
    + rewrite (Hf k a Ho). apply sublist_skip. by apply IH.
    + apply sublist_cons. by apply IH.
Qed.

(** An alert of a group bears the key of the group, and its instant is one
    interval after a record of the group. *)
Lemma analyse_records_of k heartbeats config alert :
  analyseServiceHeartbeats (records_of k heartbeats) config = Normal (Some alert) ->
  alert_service alert = k
  /\ exists r, r ∈ heartbeats /\ service r = k
       /\ alert_at alert = iso_format (timestamp r + expected_interval_seconds config * 1000)
       /\ valid_time (timestamp r + expected_interval_seconds config * 1000).
Proof.
  intros Hresult.
  destruct (analyse_Some _ _ _ Hresult) as (i & current & (Hc & _) & Hsvc & Hat & Hvalid).
  apply list_elem_of_lookup_2 in Hc.
  rewrite array_sort_Permutation in Hc.
  apply elem_of_records_of in Hc as [Hk Hin].
  split; [congruence|]. by exists current.
Qed.

Lemma NoDup_fmap_filter_length {A B} `{EqDecision B} (f : A -> B) (l : list A) (b : B) :
  NoDup (f <$> l) -> (length (filter (fun a => f a = b) l) <= 1)%nat.
Proof.
  induction l as [|x l IH]; simpl; [lia|].
  rewrite NoDup_cons. intros [Hx Hnd].
  destruct (decide (f x = b)) as [<-|Hne].
  - rewrite filter_cons_True by done. simpl.
    destruct (filter (fun a => f a = f x) l) as [|y rest] eqn:Hfilter; simpl; [lia|].
    destruct Hx. apply list_elem_of_fmap. exists y. 
    assert (y ∈ filter (fun a => f a = f x) l) as Hy by (rewrite Hfilter; apply list_elem_of_here).
    apply list_elem_of_filter in Hy as [Hfy Hy]. by split.
  - rewrite filter_cons_False by done. by apply IH.
Qed.

(** C6: the alerts of a run bear pairwise distinct services, each the
    service of an input record; so no service has more than one alert. *)
Theorem C6_at_most_one_alert_per_service heartbeats config alerts :
  analyseAllHeartbeats heartbeats config = Normal alerts ->
  NoDup (alert_service <$> alerts)
  /\ (forall a, a ∈ alerts -> alert_service a ∈ service <$> heartbeats)
  /\ (forall s, (length (filter (fun a => alert_service a = s) alerts) <= 1)%nat).
Proof.
  rewrite analyseAll_gather. intros Hg.
  assert (Hnd : NoDup (alert_service <$> alerts)).
  { apply (sublist_NoDup _ (groupHeartbeatsByService heartbeats).*1);
      [apply group_NoDup|].
    eapply gather_services; [|exact Hg].
    intros k a Ha. by apply analyse_records_of in Ha as [? _]. }
  split; [exact Hnd|]. split.
  - intros a Ha. apply (gather_elem_of _ _ a Hg) in Ha.
    apply list_elem_of_fmap in Ha as (k & Ha & Hk).
    symmetry in Ha. apply analyse_records_of in Ha as [-> _].
    by apply group_keys.
  - intros s. by apply NoDup_fmap_filter_length.
Qed.

(** C10: every alert of a run comes from the input: some input record has
    the alert's service, and [alert_at] is the [toISOString] text of that
    record's time value plus the expected interval, that is the fields
    [YYYY-MM-DDTHH:mm:ss.sssZ] that name this instant to the millisecond. *)
Theorem C10_alerts_grounded_in_input heartbeats config alerts alert :
  analyseAllHeartbeats heartbeats config = Normal alerts ->
  alert ∈ alerts ->
  alert_service alert ∈ service <$> heartbeats
  /\ exists r,
       r ∈ heartbeats /\ service r = alert_service alert
       /\ Date_toISOString (timestamp r + expected_interval_seconds config * 1000)
          = Normal (alert_at alert)
       /\ denotes_instant (alert_at alert)
            (timestamp r + expected_interval_seconds config * 1000).
Proof.
  rewrite analyseAll_gather. intros Hg Ha.
  apply (gather_elem_of _ _ alert Hg) in Ha.
  apply list_elem_of_fmap in Ha as (k & Ha & Hk).
  symmetry in Ha. apply analyse_records_of in Ha as (<- & r & Hr & Hsvc & Hat & Hvalid).
  split; [by apply group_keys|].
  exists r. repeat split; [done|done| |].
  - by rewrite Date_toISOString_valid, Hat.
  - rewrite Hat. by apply iso_format_denotes.
Qed.

(** ** The validator *)

Lemma trimStart_snoc s c :
  is_white_space c = false -> trimStart (s ++ [c]) = trimStart s ++ [c].
Proof.
  intros Hc. induction s as [|x s IH]; simpl.
  - by rewrite Hc.
  - by destruct (is_white_space x).
Qed.

Lemma trimStart_idem s : trimStart (trimStart s) = trimStart s.
Proof.
  induction s as [|x s IH]; simpl; [done|].
  destruct (is_white_space x) eqn:Hx; [done|]. simpl. by rewrite Hx.
Qed.

Lemma trimEnd_idem s : trimEnd (trimEnd s) = trimEnd s.
Proof. unfold trimEnd. by rewrite rev_involutive, trimStart_idem. Qed.

Lemma trimEnd_cons c s :
  is_white_space c = false -> trimEnd (c :: s) = c :: trimEnd s.
Proof.
  intros Hc. unfold trimEnd. simpl.
  by rewrite trimStart_snoc, rev_unit.
Qed.

Lemma trimStart_trimEnd s : trimStart (trimEnd (trimStart s)) = trimEnd (trimStart s).
Proof.
  induction s as [|x s IH]; simpl; [done|].
  destruct (is_white_space x) eqn:Hx; [done|].
  rewrite trimEnd_cons by done. simpl. by rewrite Hx.
Qed.

(** Trimming leaves nothing to trim. *)
Lemma trim_idem s : trim (trim s) = trim s.
Proof. unfold trim. by rewrite trimStart_trimEnd, trimEnd_idem. Qed.

Lemma hasRequiredFields_spec event :
  hasRequiredFields event = true <->
  exists props sv tv,
    event = JsObject props
    /\ lookup_prop (str "service") props = Some sv
    /\ lookup_prop (str "timestamp") props = Some tv.
Proof.
  unfold hasRequiredFields, has_property. split.
  - destruct event as [| | | | |items|props]; simpl;
      rewrite ?andb_false_r; try done.
    rewrite !andb_true_iff, !bool_decide_eq_true.
    intros [[sv Hs] [tv Ht]]. by exists props, sv, tv.
  - intros (props & sv & tv & -> & Hs & Ht). simpl.
    rewrite !andb_true_iff, !bool_decide_eq_true. rewrite Hs, Ht. split; eauto.
Qed.

Section ValidatorFacts.
Variable Date_parse : jsstring -> option Z.

(** The events that parse, and what they parse to. *)
Lemma parseEvent_Some event r :
  parseEvent Date_parse event = Some r <->
  exists props s text t,
    event = JsObject props
    /\ lookup_prop (str "service") props = Some (JsString s)
    /\ lookup_prop (str "timestamp") props = Some (JsString text)
    /\ trim s <> []
    /\ Date_of_string Date_parse text = Some t
    /\ r = {| service := trim s; timestamp := t |}.
Proof.
  unfold parseEvent. split.
  - destruct (hasRequiredFields event) eqn:Hfields; simpl; [|done].
    apply hasRequiredFields_spec in Hfields as (props & sv & tv & -> & Hs & Ht).
    unfold get_property. rewrite Hs, Ht. simpl.
    destruct sv as [| | | |s| |]; simpl; try done.
    destruct (trim s) as [|c s'] eqn:Htrim; simpl; [done|].
    destruct tv as [| | | |text| |]; simpl; try done.
    destruct (Date_of_string Date_parse text) as [t|] eqn:Hd; [|done].
    intros [= <-]. exists props, s, text, t. rewrite Htrim. by repeat split.
  - intros (props & s & text & t & -> & Hs & Ht & Htrim & Hd & ->).
    rewrite (proj2 (hasRequiredFields_spec _)) by eauto 6.
    unfold get_property. rewrite Hs, Ht. simpl.
    destruct (trim s) as [|c s'] eqn:E; [done|]. simpl. by rewrite Hd.
Qed.

Lemma parseEvent_valid_record event r :
  parseEvent Date_parse event = Some r -> valid_record r.
Proof.
  intros (props & s & text & t & _ & _ & _ & Htrim & Hd & ->)%parseEvent_Some.
  repeat split; simpl; [done|apply trim_idem| |].
  all: unfold Date_of_string in Hd; destruct (Date_parse text) as [t'|]; [|done];
    simpl in Hd; apply TimeClip_Some in Hd as [-> Hv]; apply Hv.
Qed.

(** An event is dropped exactly when the specification calls it invalid. *)
Lemma parseEvent_None event :
  parseEvent Date_parse event = None <-> invalid_event Date_parse event.
Proof.
  unfold invalid_event, lacks_field, service_not_text_or_blank,
    timestamp_not_text_or_unparseable.
  split.
  - intros Hnone.
    destruct event as [| | | | |items|props]; try (by left).
    destruct (lookup_prop (str "service") props) as [sv|] eqn:Hs;
      [|left; by intros ? [= <-]].
    destruct (lookup_prop (str "timestamp") props) as [tv|] eqn:Ht;
      [|right; left; by intros ? [= <-]].
    right. right. simpl. rewrite Hs, Ht. simpl.
    destruct sv as [| | | |s| |]; try (by left).
    destruct (decide (trim s = [])) as [Hblank|Hfull]; [left; congruence|].
    right. intros text ->.
    destruct (Date_of_string Date_parse text) as [t|] eqn:Hd; [|done].
    assert (parseEvent Date_parse (JsObject props)
            = Some {| service := trim s; timestamp := t |}) as Hsome.
    { apply parseEvent_Some. by exists props, s, text, t. }
    congruence.
  - intros Hinvalid.
    destruct (parseEvent Date_parse event) as [r|] eqn:Hparse; [|done].
    apply parseEvent_Some in Hparse
      as (props & s & text & t & -> & Hs & Ht & Htrim & Hd & ->).
    simpl in Hinvalid. rewrite Hs, Ht in Hinvalid. simpl in Hinvalid.
    destruct Hinvalid as [H|[H|[H|H]]].
    + specialize (H props eq_refl). congruence.
    + specialize (H props eq_refl). congruence.
    + by specialize (H s eq_refl).
    + specialize (H text eq_refl). congruence.
Qed.

Lemma validate_loop_spec events valid0 invalid0 :
  validate_loop Date_parse events valid0 invalid0
  = {| valid := valid0 ++ omap (parseEvent Date_parse) events;
       invalid := invalid0
                  + length (filter (fun e => parseEvent Date_parse e = None) events) |}.
Proof.
  revert valid0 invalid0. induction events as [|event events IH]; intros valid0 invalid0.
  - simpl. by rewrite app_nil_r, Nat.add_0_r.
  - csimpl. destruct (parseEvent Date_parse event) as [r|] eqn:Hparse.
    + rewrite IH, filter_cons_False by congruence.
      by rewrite <- (assoc_L (++)).
    + rewrite IH, filter_cons_True by done. simpl. by rewrite Nat.add_succ_r.
Qed.

Lemma validate_spec events :
  validateAndParseEvents Date_parse events
  = {| valid := omap (parseEvent Date_parse) events;
       invalid := length (filter (fun e => parseEvent Date_parse e = None) events) |}.
Proof. unfold validateAndParseEvents. by rewrite validate_loop_spec. Qed.

Lemma validate_valid_records events :
  Forall valid_record (valid (validateAndParseEvents Date_parse events)).
Proof.
  rewrite validate_spec. simpl. apply Forall_forall. intros r Hr.
  apply list_elem_of_omap in Hr as (event & _ & Hparse).
  by eapply parseEvent_valid_record.
Qed.

Lemma omap_filter_length events :
  (length (omap (parseEvent Date_parse) events)
   + length (filter (fun e => parseEvent Date_parse e = None) events)
   = length events)%nat.
Proof.
  induction events as [|event events IH]; csimpl; [done|].
  destruct (parseEvent Date_parse event) as [r|] eqn:Hparse.
  - rewrite filter_cons_False by congruence. simpl. lia.
  - rewrite filter_cons_True by done. simpl. lia.
Qed.
End ValidatorFacts.

(** C8: the validator splits the events: the valid records and the invalid
    count add up to the number of events; the events counted invalid are
    those the specification calls invalid; an invalid event stops nothing, as
    the valid records are the parses of all the events that parse, in order;
    and each valid record has a service that is not empty and is trimmed, and
    a valid time value. *)
Theorem C8_validation_partitions_events (Date_parse : jsstring -> option Z)
    (events : list JsValue) :
  let result := validateAndParseEvents Date_parse events in
  (length (valid result) + invalid result = length events)%nat
  /\ (forall event, parseEvent Date_parse event = None <-> invalid_event Date_parse event)
  /\ invalid result = length (filter (fun e => parseEvent Date_parse e = None) events)
  /\ valid result = omap (parseEvent Date_parse) events
  /\ Forall valid_record (valid result).
Proof.
  pose proof (validate_valid_records Date_parse events) as Hvalid.
  simpl. rewrite validate_spec in *. simpl in *.
  split; [apply omap_filter_length|].
  split; [apply parseEvent_None|]. done.
Qed.

(** ** The entry point *)

Lemma analyse_normal heartbeats config :
  Forall valid_record heartbeats -> well_formed_config config ->
  thresholdSeconds config * 1000 <= 2 ^ 53 ->
  exists result, analyseServiceHeartbeats heartbeats config = Normal result.
Proof.
  intros Hvalid Hcfg Hbound.
  assert (Hthr : Z.abs (thresholdSeconds config * 1000) <= 2 ^ 53).
  { destruct Hcfg as [He Hm]. unfold thresholdSeconds in *. nia. }
  destruct (Nat.lt_ge_cases (length heartbeats) 2) as [Hshort|Hlen].
  { exists None. by apply analyse_short. }
  destruct (analyse_spec heartbeats config Hlen) as [(i & c & Hfirst & E)|[_ E]];
    [|by exists None].
  apply first_alerting_gap_qualifying in Hfirst as (Hc & Hq & _);
    [|apply array_sort_chronological|done].
  rewrite E, (make_alert_normal config (array_sort by_timestamp heartbeats) i c Hcfg);
    [by eexists| |done|done].
  eapply valid_records_sorted; [exact Hvalid|apply array_sort_Permutation].
Qed.

Lemma gather_normal results :
  Forall (fun r => exists o, r = Normal o) results ->
  exists alerts, gather results = Normal alerts.
Proof.
  induction 1 as [|r results [o ->] _ [alerts IH]]; simpl; [by eexists|].
  rewrite IH. simpl. by eexists.
Qed.

Lemma records_of_valid k heartbeats :
  Forall valid_record heartbeats -> Forall valid_record (records_of k heartbeats).
Proof.
  rewrite !Forall_forall. intros Hvalid r Hr.
  apply elem_of_records_of in Hr as [_ Hr]. by apply Hvalid.
Qed.

(** On valid records and a well-formed configuration with a threshold of
    2^53 ms at most the batch operation does not throw. *)
Lemma analyseAll_normal heartbeats config :
  Forall valid_record heartbeats -> well_formed_config config ->
  thresholdSeconds config * 1000 <= 2 ^ 53 ->
  exists alerts, analyseAllHeartbeats heartbeats config = Normal alerts.
Proof.
  intros Hvalid Hcfg Hbound. rewrite analyseAll_gather.
  apply gather_normal, Forall_fmap, Forall_forall. intros k _. simpl.
  apply analyse_normal; [by apply records_of_valid|done..].
Qed.




(** ** The theorems at the inputs of the test suites *)

Ltac valid_records :=
  repeat constructor; try discriminate; try reflexivity;
  unfold valid_time, max_time; simpl; lia.

Ltac in_time_order :=
  split; [reflexivity | repeat constructor; unfold time_le; simpl; lia].

Lemma config_60_3_well_formed : well_formed_config config_60_3.
Proof. split; simpl; lia. Defined.

Lemma config_60_3_threshold : thresholdSeconds config_60_3 * 1000 <= 2 ^ 53.
Proof. vm_compute. discriminate. Defined.

Lemma C1_exact_threshold_witness :
  exists alert,
    analyseServiceHeartbeats [beat "test" 10 0; beat "test" 10 4] config_60_3
    = Normal (Some alert).
Proof.
  destruct (C1_alert_iff_gap_reaches_threshold (str "test")
              [beat "test" 10 0; beat "test" 10 4]
              [beat "test" 10 0; beat "test" 10 4] config_60_3)
    as (_ & Hexact & _).
  - repeat constructor.
  - simpl. lia.
  - valid_records.
  - exact config_60_3_well_formed.
  - exact config_60_3_threshold.
  - in_time_order.
  - apply (Hexact 0%nat (beat "test" 10 0) (beat "test" 10 4)); reflexivity.
Defined.

(** C1 as the specification has it fails on a gap above 2^53 ms: the two
    records are one millisecond less than the threshold apart, the
    difference of their time values rounds to the threshold, and the
    detector alerts. *)
Lemma C1_gap_below_threshold_alerts :
  (single_service (str "a") beats_at_the_ends
   /\ (2 <= length beats_at_the_ends)%nat
   /\ Forall valid_record beats_at_the_ends
   /\ well_formed_config config_range_1
   /\ chronological beats_at_the_ends beats_at_the_ends)
  /\ 8640000000000000 - -8639999999999999 = thresholdSeconds config_range_1 * 1000 - 1
  /\ analyseServiceHeartbeats beats_at_the_ends config_range_1
     = Normal (Some {| alert_service := str "a";
                       alert_at := str "1970-01-01T00:00:00.001Z" |})
  /\ ~ (exists i, qualifying_gap config_range_1 beats_at_the_ends i).
Proof.
  split; [|split; [reflexivity|split; [vm_compute; reflexivity|]]].
  - split; [repeat constructor|]. split; [simpl; lia|].
    split; [valid_records|]. split; [split; simpl; lia|in_time_order].
  - intros (i & c & x & Hc & Hx & Hgap).
    destruct i as [|[|i]]; [|done..].
    injection Hc as <-. injection Hx as <-. vm_compute in Hgap. by apply Hgap.
Qed.

Lemma C2_first_missed_beat_witness :
  exists i current,
    first_alerting_gap config_60_3
      [beat "email" 10 0; beat "email" 10 1; beat "email" 10 2; beat "email" 10 6]
      i current
    /\ (Z.abs (thresholdSeconds config_60_3 * 1000) <= 2 ^ 53 ->
        first_qualifying_gap config_60_3
          [beat "email" 10 0; beat "email" 10 1; beat "email" 10 2; beat "email" 10 6]
          i current)
    /\ str "email" = service current
    /\ Date_toISOString (timestamp current + 60 * 1000)
       = Normal (str "2025-08-04T10:03:00.000Z")
    /\ (forall t, denotes_instant (str "2025-08-04T10:03:00.000Z") t
                  <-> t = timestamp current + 60 * 1000).
Proof.
  apply (C2_alert_at_first_missed_beat (str "email")
           [beat "email" 10 1; beat "email" 10 0; beat "email" 10 2; beat "email" 10 6]
           [beat "email" 10 0; beat "email" 10 1; beat "email" 10 2; beat "email" 10 6]
           config_60_3
           {| alert_service := str "email"; alert_at := str "2025-08-04T10:03:00.000Z" |}).
  - repeat constructor.
  - split; [apply Permutation_swap|repeat constructor; unfold time_le; simpl; lia].
  - vm_compute. reflexivity.
Defined.

(** C2 as the specification has it fails on the same input: the detector
    alerts, and the list has no qualifying pair for the alert to come
    from. *)
Lemma C2_alert_without_qualifying_pair :
  (single_service (str "a") beats_at_the_ends
   /\ chronological beats_at_the_ends beats_at_the_ends)
  /\ analyseServiceHeartbeats beats_at_the_ends config_range_1
     = Normal (Some {| alert_service := str "a";
                       alert_at := str "1970-01-01T00:00:00.001Z" |})
  /\ ~ (exists i current, first_qualifying_gap config_range_1 beats_at_the_ends i current).
Proof.
  split; [split; [repeat constructor|in_time_order]|].
  split; [vm_compute; reflexivity|].
  intros (i & current & _ & (c & x & Hc & Hx & Hgap) & _).
  destruct i as [|[|i]]; [|done..].
  injection Hc as <-. injection Hx as <-. vm_compute in Hgap. by apply Hgap.
Qed.


Lemma C4_single_record_witness :
  analyseServiceHeartbeats [beat "email" 10 0] config_60_3 = Normal None.
Proof.
  apply (C4_fewer_than_two_records_no_alert [beat "email" 10 0] config_60_3).
  simpl. lia.
Defined.

Lemma C5_swapped_input_witness :
  same_alert_set
    (analyseAllHeartbeats
       [beat "push" 10 5; beat "email" 10 0; beat "push" 10 0; beat "email" 10 6]
       config_60_3)
    (analyseAllHeartbeats
       [beat "email" 10 0; beat "push" 10 5; beat "push" 10 0; beat "email" 10 6]
       config_60_3).
Proof.
  apply (C5_alert_set_invariant_under_permutation
           [beat "push" 10 5; beat "email" 10 0; beat "push" 10 0; beat "email" 10 6]
           [beat "email" 10 0; beat "push" 10 5; beat "push" 10 0; beat "email" 10 6]
           config_60_3).
  apply Permutation_swap.
Defined.

Lemma C6_three_services_witness :
  NoDup (alert_service <$>
           [{| alert_service := str "email"; alert_at := str "2025-08-04T10:03:00.000Z" |};
            {| alert_service := str "push"; alert_at := str "2025-08-04T10:01:00.000Z" |}])
  /\ (forall a,
        a ∈ [{| alert_service := str "email"; alert_at := str "2025-08-04T10:03:00.000Z" |};
             {| alert_service := str "push"; alert_at := str "2025-08-04T10:01:00.000Z" |}] ->
        alert_service a
        ∈ service <$>
            [beat "email" 10 0; beat "email" 10 1; beat "email" 10 2; beat "email" 10 6;
             beat "sms" 10 0; beat "sms" 10 1; beat "sms" 10 2;
             beat "push" 10 0; beat "push" 10 5])
  /\ (forall s,
        (length (filter (fun a => alert_service a = s)
           [{| alert_service := str "email"; alert_at := str "2025-08-04T10:03:00.000Z" |};
            {| alert_service := str "push"; alert_at := str "2025-08-04T10:01:00.000Z" |}])
         <= 1)%nat).
Proof.
  apply (C6_at_most_one_alert_per_service
           [beat "email" 10 0; beat "email" 10 1; beat "email" 10 2; beat "email" 10 6;
            beat "sms" 10 0; beat "sms" 10 1; beat "sms" 10 2;
            beat "push" 10 0; beat "push" 10 5]
           config_60_3
           [{| alert_service := str "email"; alert_at := str "2025-08-04T10:03:00.000Z" |};
            {| alert_service := str "push"; alert_at := str "2025-08-04T10:01:00.000Z" |}]).
  vm_compute. reflexivity.
Defined.



Lemma C10_grounded_alert_witness :
  str "email" ∈ service <$> [beat "email" 10 0; beat "email" 10 5; beat "sms" 10 0]
  /\ exists r,
       r ∈ [beat "email" 10 0; beat "email" 10 5; beat "sms" 10 0]
       /\ service r = str "email"
       /\ Date_toISOString (timestamp r + 60 * 1000)
          = Normal (str "2025-08-04T10:01:00.000Z")
       /\ denotes_instant (str "2025-08-04T10:01:00.000Z") (timestamp r + 60 * 1000).
Proof.
  apply (C10_alerts_grounded_in_input
           [beat "email" 10 0; beat "email" 10 5; beat "sms" 10 0] config_60_3
           [{| alert_service := str "email"; alert_at := str "2025-08-04T10:01:00.000Z" |}]
           {| alert_service := str "email"; alert_at := str "2025-08-04T10:01:00.000Z" |}).
  - vm_compute. reflexivity.
  - apply list_elem_of_here.
Defined.

(** * Further properties of the code *)

(** ** Trimming *)

Lemma trimStart_split s :
  exists pre, s = pre ++ trimStart s /\ all_white_space pre.
Proof.
  induction s as [|c s (pre & Hs & Hpre)]; simpl.
  - exists []. split; [done|constructor].
  - destruct (is_white_space c) eqn:Hc.
    + exists (c :: pre). split; [simpl; congruence|by constructor].
    + exists []. split; [done|constructor].
Qed.

Lemma trimStart_head s c : head (trimStart s) = Some c -> is_white_space c = false.
Proof.
  induction s as [|x s IH]; simpl; [done|].
  destruct (is_white_space x) eqn:Hx; [done|]. simpl. congruence.
Qed.

Lemma trimStart_nil s : trimStart s = [] <-> all_white_space s.
Proof.
  unfold all_white_space. induction s as [|c s IH]; simpl.
  - split; [constructor|done].
  - rewrite Forall_cons. destruct (is_white_space c) eqn:Hc.
    + rewrite IH. split; [by split|by intros []].
    + split; [done|]. intros [? _]. congruence.
Qed.

Lemma all_white_space_rev s : all_white_space (rev s) <-> all_white_space s.
Proof.
  unfold all_white_space. split; intros H.
  - rewrite <- (rev_involutive s). by apply Forall_rev.
  - by apply Forall_rev.
Qed.

Lemma trimEnd_split s :
  exists post, s = trimEnd s ++ post /\ all_white_space post.
Proof.
  unfold trimEnd. destruct (trimStart_split (rev s)) as (pre & Hs & Hpre).
  exists (rev pre). split; [|by apply all_white_space_rev].
  by rewrite <- rev_app_distr, <- Hs, rev_involutive.
Qed.

Lemma last_rev_head (s : jsstring) : last (rev s) = head s.
Proof.
  destruct s as [|c s]; [done|]. simpl.
  by rewrite last_snoc.
Qed.

Lemma trimEnd_last s c : last (trimEnd s) = Some c -> is_white_space c = false.
Proof. unfold trimEnd. rewrite last_rev_head. apply trimStart_head. Qed.

Lemma trimEnd_head s c :
  head s = Some c -> is_white_space c = false -> head (trimEnd s) = Some c.
Proof.
  destruct s as [|x s]; [done|]. simpl. intros [= ->] Hc.
  by rewrite trimEnd_cons.
Qed.

Lemma trim_head s c : head (trim s) = Some c -> is_white_space c = false.
Proof.
  unfold trim. destruct (trimStart s) as [|x s'] eqn:Hs; [done|].
  assert (is_white_space x = false) as Hx.
  { apply (trimStart_head s). by rewrite Hs. }
  rewrite trimEnd_cons by done. simpl. congruence.
Qed.

Lemma trim_nil s : trim s = [] <-> all_white_space s.
Proof.
  unfold trim. rewrite <- trimStart_nil. split.
  - intros Hnil. destruct (trimStart s) as [|x s'] eqn:Hs; [done|].
    assert (is_white_space x = false) as Hx.
    { apply (trimStart_head s). by rewrite Hs. }
    by rewrite trimEnd_cons in Hnil.
  - by intros ->.
Qed.

(** What [trim] keeps of a text: the part between a leading and a trailing
    run of white space, which starts and ends with other code units. *)
Lemma trim_split s :
  exists pre post,
    s = pre ++ trim s ++ post
    /\ all_white_space pre /\ all_white_space post
    /\ (forall c, head (trim s) = Some c -> is_white_space c = false)
    /\ (forall c, last (trim s) = Some c -> is_white_space c = false).
Proof.
  destruct (trimStart_split s) as (pre & Hs & Hpre).
  destruct (trimEnd_split (trimStart s)) as (post & Hs' & Hpost).
  exists pre, post. repeat split; [|done|done|apply trim_head|apply trimEnd_last].
  unfold trim. by rewrite <- Hs'.
Qed.

(** ** The validator, further *)

(** X1: a service passes [isValidService] exactly when it is a text with a
    code unit that is not white space. *)
Theorem X1_valid_service_has_visible_code_unit (service : JsValue) :
  isValidService service = true
  <-> exists s c, service = JsString s /\ c ∈ s /\ is_white_space c = false.
Proof.
  unfold isValidService. split.
  - destruct service as [| | | |s| |]; try done.
    intros Hlen%Nat.ltb_lt.
    destruct (decide (all_white_space s)) as [Hall|Hsome].
    { apply trim_nil in Hall. rewrite Hall in Hlen. simpl in Hlen. lia. }
    unfold all_white_space in Hsome. apply not_Forall_Exists in Hsome; [|apply _].
    apply Exists_exists in Hsome as (c & Hc & Hws).
    exists s, c. split; [done|]. split; [done|]. by apply not_true_is_false.
  - intros (s & c & -> & Hc & Hws). apply Nat.ltb_lt.
    destruct (trim s) as [|x s'] eqn:Htrim; [|simpl; lia].
    apply trim_nil in Htrim. unfold all_white_space in Htrim.
    rewrite Forall_forall in Htrim. specialize (Htrim c Hc). congruence.
Qed.

Section ValidatorMore.
Variable Date_parse : jsstring -> option Z.

(** X2: the service of a parsed record is the raw service without its
    leading and trailing white space: what is cut off on both sides is white
    space only, what is kept is not empty and starts and ends with other code
    units, and white space inside is kept. *)
Theorem X2_parsed_service_is_raw_service_trimmed props s r :
  lookup_prop (str "service") props = Some (JsString s) ->
  parseEvent Date_parse (JsObject props) = Some r ->
  exists pre post,
    s = pre ++ service r ++ post
    /\ all_white_space pre /\ all_white_space post
    /\ (exists c, head (service r) = Some c /\ is_white_space c = false)
    /\ (exists c, last (service r) = Some c /\ is_white_space c = false).
Proof.
  intros Hs (props' & s' & text & t & [= <-] & Hs' & _ & Hfull & _ & ->)%parseEvent_Some.
  rewrite Hs in Hs'. injection Hs' as <-. simpl.
  destruct (trim_split s) as (pre & post & Hsplit & Hpre & Hpost & Hhead & Hlast).
  exists pre, post. repeat split; [done..| |].
  - destruct (trim s) as [|c rest] eqn:E; [done|]. exists c. split; [done|]. by apply Hhead.
  - destruct (last (trim s)) as [c|] eqn:E.
    + exists c. split; [done|]. by apply Hlast.
    + apply last_None in E. done.
Qed.

(** X3: an event is judged by its [service] and [timestamp] properties
    alone: other properties, and the order of the properties, change
    nothing. *)
Theorem X3_other_properties_are_ignored props props' :
  lookup_prop (str "service") props = lookup_prop (str "service") props' ->
  lookup_prop (str "timestamp") props = lookup_prop (str "timestamp") props' ->
  parseEvent Date_parse (JsObject props) = parseEvent Date_parse (JsObject props').
Proof.
  intros Hs Ht. unfold parseEvent, hasRequiredFields, has_property, get_property.
  simpl. by rewrite Hs, Ht.
Qed.

(** X4: two services that differ by leading or trailing white space only
    give the same record. *)
Theorem X4_surrounding_white_space_is_immaterial props props' s s' :
  lookup_prop (str "service") props = Some (JsString s) ->
  lookup_prop (str "service") props' = Some (JsString s') ->
  trim s = trim s' ->
  lookup_prop (str "timestamp") props = lookup_prop (str "timestamp") props' ->
  parseEvent Date_parse (JsObject props) = parseEvent Date_parse (JsObject props').
Proof.
  intros Hs Hs' Htrim Ht.
  unfold parseEvent, hasRequiredFields, has_property, get_property, isValidService.
  simpl. rewrite Hs, Hs', Ht. simpl. by rewrite Htrim.
Qed.

(** X5: validating a batch in two parts gives the valid records of the
    first part followed by those of the second, and the sum of the invalid
    counts. *)
Theorem X5_validation_of_concatenated_batches events1 events2 :
  valid (validateAndParseEvents Date_parse (events1 ++ events2))
  = valid (validateAndParseEvents Date_parse events1)
    ++ valid (validateAndParseEvents Date_parse events2)
  /\ invalid (validateAndParseEvents Date_parse (events1 ++ events2))
     = (invalid (validateAndParseEvents Date_parse events1)
        + invalid (validateAndParseEvents Date_parse events2))%nat.
Proof.
  rewrite !validate_spec. simpl.
  by rewrite omap_app, filter_app, length_app.
Qed.

End ValidatorMore.

(** ** The gap detector, further *)

Lemma scan_loop_first_gap config pre sorted :
  scan_loop (pre ++ sorted) config (length sorted - 1) (length pre)
  = alert_of config (first_gap (thresholdMs config) sorted).
Proof.
  revert pre. induction sorted as [|current rest IH]; intros pre; [done|].
  destruct rest as [|next rest]; [done|].
  replace (length (current :: next :: rest) - 1)%nat with (S (length (next :: rest) - 1))
    by (simpl; lia).
  cbn [scan_loop first_gap].
  rewrite lookup_app_r, Nat.sub_diag by lia.
  rewrite lookup_app_r by lia.
  replace (length pre + 1 - length pre)%nat with 1%nat by lia.
  cbn [lookup list_lookup].
  destruct (thresholdMs config <=? round_double (timestamp next - timestamp current));
    [done|].
  specialize (IH (pre ++ [current])).
  rewrite <- (assoc_L (++)), length_app in IH. exact IH.
Qed.

(** The detector in one equation. *)
Lemma analyse_first_gap heartbeats config :
  analyseServiceHeartbeats heartbeats config
  = alert_of config (first_gap (thresholdMs config) (array_sort by_timestamp heartbeats)).
Proof.
  unfold analyseServiceHeartbeats.
  destruct (Nat.ltb_spec (length heartbeats) 2) as [Hshort|Hlen].
  - pose proof (Permutation_length (array_sort_Permutation by_timestamp heartbeats)) as Hl.
    destruct (array_sort by_timestamp heartbeats) as [|a [|b rest]]; simpl in *; [done..|lia].
  - apply (scan_loop_first_gap config []).
Qed.

Lemma first_gap_Some threshold sorted current :
  first_gap threshold sorted = Some current ->
  exists i next,
    sorted !! i = Some current /\ sorted !! S i = Some next
    /\ threshold <= round_double (timestamp next - timestamp current).
Proof.
  induction sorted as [|a rest IH]; [done|].
  destruct rest as [|b rest]; [done|]. cbn [first_gap].
  destruct (Z.leb_spec threshold (round_double (timestamp b - timestamp a))) as [Hle|Hgt].
  - intros [= <-]. by exists 0%nat, b.
  - intros (i & next & Hc & Hn & Hgap)%IH. by exists (S i), next.
Qed.

Lemma first_gap_None threshold sorted i current next :
  first_gap threshold sorted = None ->
  sorted !! i = Some current -> sorted !! S i = Some next ->
  round_double (timestamp next - timestamp current) < threshold.
Proof.
  revert i. induction sorted as [|a rest IH]; intros i; [done|].
  destruct rest as [|b rest]; [by destruct i|]. cbn [first_gap].
  destruct (Z.leb_spec threshold (round_double (timestamp b - timestamp a))) as [Hle|Hgt];
    [done|].
  intros Hnone. destruct i as [|i]; simpl.
  - intros [= <-] [= <-]. done.
  - by apply IH.
Qed.

(** X6: raising the threshold cannot create an alert: when the detector
    finds nothing under one configuration, it finds nothing under any
    configuration whose threshold is at least as large. *)
Theorem X6_no_alert_under_larger_threshold heartbeats config config' :
  thresholdMs config <= thresholdMs config' ->
  analyseServiceHeartbeats heartbeats config = Normal None ->
  analyseServiceHeartbeats heartbeats config' = Normal None.
Proof.
  rewrite !analyse_first_gap. intros Hle Hnone.
  destruct (first_gap (thresholdMs config) _) as [c|] eqn:Hgap.
  { simpl in Hnone. by destruct (make_alert c config). }
  destruct (first_gap (thresholdMs config') _) as [c'|] eqn:Hgap'; [|done].
  apply first_gap_Some in Hgap' as (i & next & Hc & Hn & Hwide).
  pose proof (first_gap_None _ _ _ _ _ Hgap Hc Hn). lia.
Qed.

(** X7: under a configuration of two integers, with a positive interval,
    non-negative misses and a threshold of 2^53 ms at most, the instant an
    alert names lies in the gap that caused it: after the earlier record and
    not after the later one. *)
Theorem X7_alert_instant_lies_in_the_gap heartbeats config alert :
  well_formed_config config ->
  thresholdSeconds config * 1000 <= 2 ^ 53 ->
  analyseServiceHeartbeats heartbeats config = Normal (Some alert) ->
  exists i current next,
    array_sort by_timestamp heartbeats !! i = Some current
    /\ array_sort by_timestamp heartbeats !! S i = Some next
    /\ alert_service alert = service current
    /\ denotes_instant (alert_at alert)
         (timestamp current + expected_interval_seconds config * 1000)
    /\ timestamp current
       < timestamp current + expected_interval_seconds config * 1000
       <= timestamp next.
Proof.
  intros [He Hm] Hbound Hresult.
  assert (Hthr : Z.abs (thresholdSeconds config * 1000) <= 2 ^ 53).
  { unfold thresholdSeconds in *. nia. }
  destruct (analyse_Some _ _ _ Hresult) as (i & current & Hfirst & Hsvc & Hat & Hvalid).
  apply first_alerting_gap_qualifying in Hfirst
    as (Hc & (c & next & Hc' & Hn & Hgap) & _); [|apply array_sort_chronological|done].
  rewrite Hc in Hc'. injection Hc' as <-.
  exists i, current, next. repeat split; [done..| | |].
  - rewrite Hat. by apply iso_format_denotes.
  - lia.
  - unfold thresholdSeconds in Hgap.
    assert (expected_interval_seconds config * 1000
            <= expected_interval_seconds config * (allowed_misses config + 1) * 1000) by nia.
    lia.
Qed.

(** X8: the configuration is not checked.  With a threshold of zero or
    less, as with [allowed_misses = -1], two records are enough: the
    detector stops at the first pair and builds its alert from the earliest
    record. *)
Theorem X8_non_positive_threshold_stops_at_first_pair heartbeats config :
  thresholdMs config <= 0 ->
  (2 <= length heartbeats)%nat ->
  exists earliest,
    array_sort by_timestamp heartbeats !! 0%nat = Some earliest
    /\ (forall r, r ∈ heartbeats -> timestamp earliest <= timestamp r)
    /\ analyseServiceHeartbeats heartbeats config
       = (let* alert := make_alert earliest config in Normal (Some alert)).
Proof.
  intros Hthr Hlen. rewrite analyse_first_gap.
  pose proof (array_sort_chronological heartbeats) as [Hperm Hsorted].
  pose proof (Permutation_length Hperm) as Hl.
  destruct (array_sort by_timestamp heartbeats) as [|a [|b rest]] eqn:E;
    simpl in Hl; [lia..|].
  exists a. split; [done|]. split.
  - intros r Hr. rewrite <- Hperm in Hr.
    apply list_elem_of_lookup_1 in Hr as [j Hj].
    apply (sorted_lookup_le (a :: b :: rest) 0 j); [done|lia|done..].
  - cbn [first_gap].
    pose proof (sorted_lookup_le (a :: b :: rest) 0 1 a b Hsorted) as Hab.
    destruct (Z.leb_spec (thresholdMs config) (round_double (timestamp b - timestamp a)));
      [done|].
    specialize (Hab ltac:(lia) eq_refl eq_refl).
    pose proof (round_double_nonneg (timestamp b - timestamp a)). lia.
Qed.

(** X9: the detector throws exactly when the first pair of the sorted copy
    for which the comparison of its loop holds, the rounded gap being at
    least the threshold, starts at a record whose time value plus the
    interval is no valid time value of a [Date]; the exception is the
    [RangeError] of [toISOString]. *)
Theorem X9_throws_iff_alert_instant_out_of_range heartbeats config :
  analyseServiceHeartbeats heartbeats config = Throws RangeError
  <-> exists i current,
        first_alerting_gap config (array_sort by_timestamp heartbeats) i current
        /\ ~ valid_time (timestamp current + expected_interval_seconds config * 1000).
Proof.
  assert (Hmake : forall c,
    (let* alert := make_alert c config in Normal (Some alert)) = Throws RangeError
    <-> ~ valid_time (timestamp c + expected_interval_seconds config * 1000)).
  { intros c. unfold make_alert, Date_toISOString, TimeClip.
    rewrite <- valid_timeb_spec. destruct (valid_timeb _); simpl.
    - split; [done|]. by intros [].
    - split; done. }
  split.
  - intros Hthrows.
    destruct (Nat.lt_ge_cases (length heartbeats) 2) as [Hshort|Hlen].
    { by rewrite analyse_short in Hthrows. }
    destruct (analyse_spec heartbeats config Hlen) as [(i & c & Hfirst & E)|[_ E]];
      [|congruence].
    exists i, c. split; [done|]. apply Hmake. congruence.
  - intros (i & c & Hfirst & Hbad).
    assert (Hlen : (2 <= length heartbeats)%nat).
    { apply proj2, proj1, alerting_gap_lt in Hfirst.
      rewrite (Permutation_length (array_sort_Permutation _ _)) in Hfirst. lia. }
    destruct (analyse_spec heartbeats config Hlen) as [(i' & c' & Hfirst' & E)|[Hnone E]].
    + destruct (first_alerting_gap_unique _ _ _ _ _ _ Hfirst Hfirst') as [<- <-].
      rewrite E. by apply Hmake.
    + destruct (Hnone i). apply Hfirst.
Qed.

Lemma sort_insert_head r sorted :
  StronglySorted time_le sorted ->
  timestamp r ∈ timestamp <$> sorted ->
  timestamp <$> head (sort_insert by_timestamp r sorted) = timestamp <$> head sorted.
Proof.
  intros Hsorted Hin. destruct sorted as [|y rest]; [by apply elem_of_nil in Hin|].
  simpl. unfold by_timestamp.
  destruct (Z.leb_spec (timestamp r - timestamp y) 0) as [Hle|Hgt]; [|done].
  simpl. f_equal.
  apply StronglySorted_inv in Hsorted as [_ Hy]. rewrite Forall_forall in Hy.
  apply elem_of_cons in Hin as [Heq|Hin]; [done|].
  apply list_elem_of_fmap in Hin as (z & Hz & Hzin).
  specialize (Hy z Hzin). unfold time_le in Hy. lia.
Qed.

Lemma first_gap_cons threshold y l1 l2 :
  timestamp <$> head l1 = timestamp <$> head l2 ->
  first_gap threshold l1 = first_gap threshold l2 ->
  first_gap threshold (y :: l1) = first_gap threshold (y :: l2).
Proof.
  destruct l1 as [|a1 l1], l2 as [|a2 l2]; try done.
  cbn [first_gap head fmap option_fmap option_map].
  intros [= ->] Hrest.
  destruct (threshold <=? round_double (timestamp a2 - timestamp y)); [done|].
  exact Hrest.
Qed.

(** Inserting a record at an instant the list already has changes no gap. *)
Lemma first_gap_insert_same_instant threshold r sorted :
  0 < threshold ->
  StronglySorted time_le sorted ->
  timestamp r ∈ timestamp <$> sorted ->
  first_gap threshold (sort_insert by_timestamp r sorted) = first_gap threshold sorted.
Proof.
  intros Hthr Hsorted. induction Hsorted as [|y rest Hrest IH Hy]; intros Hin.
  { by apply elem_of_nil in Hin. }
  simpl. unfold by_timestamp at 1.
  destruct (Z.leb_spec (timestamp r - timestamp y) 0) as [Hle|Hgt].
  - assert (timestamp r = timestamp y) as Heq.
    { apply elem_of_cons in Hin as [Heq|Hin]; [done|].
      apply list_elem_of_fmap in Hin as (z & Hz & Hzin).
      rewrite Forall_forall in Hy. specialize (Hy z Hzin). unfold time_le in Hy. lia. }
    cbn [first_gap]. rewrite Heq, Z.sub_diag.
    destruct (Z.leb_spec threshold (round_double 0)); [|done].
    rewrite round_double_small in *; [lia|done].
  - assert (Hin2 : timestamp r ∈ timestamp <$> rest).
    { apply elem_of_cons in Hin as [Heq|Hin]; [lia|done]. }
    apply first_gap_cons; [by apply sort_insert_head|by apply IH].
Qed.

(** X10: a heartbeat delivered twice changes nothing: with a positive
    threshold, the detector returns the same on the records of a service with
    or without a second copy of one of them, wherever the copy stands. *)
Theorem X10_duplicate_heartbeat_is_harmless s heartbeats heartbeats2 r config :
  0 < thresholdMs config ->
  single_service s heartbeats ->
  r ∈ heartbeats ->
  heartbeats2 ≡ₚ r :: heartbeats ->
  analyseServiceHeartbeats heartbeats2 config
  = analyseServiceHeartbeats heartbeats config.
Proof.
  intros Hthr Hs Hr Hperm.
  assert (Hs2 : single_service s (r :: heartbeats)).
  { constructor; [|done]. unfold single_service in Hs. rewrite Forall_forall in Hs. auto. }
  rewrite <- (analyse_Permutation s (r :: heartbeats) heartbeats2 config Hs2)
    by by symmetry.
  rewrite !analyse_first_gap. f_equal. simpl.
  apply first_gap_insert_same_instant; [done|apply array_sort_StronglySorted|].
  apply list_elem_of_fmap. exists r. split; [done|].
  by rewrite array_sort_Permutation.
Qed.

(** ** The grouper and the batch operation, further *)

Lemma elem_of_first_occurrences l x : x ∈ first_occurrences l <-> x ∈ l.
Proof.
  induction l as [|y l IH]; simpl; [done|].
  rewrite !elem_of_cons, list_elem_of_filter, IH.
  destruct (decide (x = y)) as [->|Hne]; [by split; left|].
  split; [intros [?|[_ ?]]; [done|by right]|intros [?|?]; [done|by right]].
Qed.

Lemma first_occurrences_snoc l x :
  first_occurrences (l ++ [x])
  = if decide (x ∈ l) then first_occurrences l else first_occurrences l ++ [x].
Proof.
  induction l as [|y l IH]; cbn [first_occurrences app].
  - destruct (decide (x ∈ [])) as [H%elem_of_nil|]; done.
  - rewrite IH. destruct (decide (x ∈ l)) as [Hin|Hout].
    + rewrite decide_True; [done|by right].
    + rewrite filter_app, (filter_singleton _ x []).
      destruct (decide (x <> y)) as [Hne|Heq], (decide (x ∈ y :: l)) as [Hin'|Hout'].
      * apply elem_of_cons in Hin' as [?|?]; done.
      * done.
      * by rewrite app_nil_r.
      * destruct Hout'. destruct (decide (x = y)) as [->|?]; [apply list_elem_of_here|done].
Qed.

Lemma group_keys_first_occurrences heartbeats :
  (groupHeartbeatsByService heartbeats).*1 = first_occurrences (service <$> heartbeats).
Proof.
  induction heartbeats as [|r l IH] using rev_ind; [done|].
  rewrite group_snoc, fmap_app. change (service <$> [r]) with [service r].
  rewrite first_occurrences_snoc. unfold group_step. simpl.
  destruct (decide (service r ∈ service <$> l)) as [Hin|Hout].
  - rewrite map_set_keys_present; [done|]. by apply group_keys.
  - rewrite map_set_absent by (by rewrite group_keys).
    by rewrite fmap_app, IH.
Qed.

(** X11: the groups stand in the order in which their services first occur
    in the input, one group for each service that occurs, and each group
    keeps its records in input order. *)
Theorem X11_groups_in_order_of_first_appearance heartbeats :
  groupHeartbeatsByService heartbeats
  = (fun k => (k, records_of k heartbeats)) <$> first_occurrences (service <$> heartbeats).
Proof. rewrite <- group_keys_first_occurrences. apply group_closed_form. Qed.

(** X12: the alerts of a run come in the order in which their services
    first occur in the input. *)
Theorem X12_alerts_in_order_of_first_appearance heartbeats config alerts :
  analyseAllHeartbeats heartbeats config = Normal alerts ->
  alert_service <$> alerts `sublist_of` first_occurrences (service <$> heartbeats).
Proof.
  rewrite analyseAll_gather, <- group_keys_first_occurrences. intros Hg.
  eapply gather_services; [|exact Hg].
  intros k a Ha. by apply analyse_records_of in Ha as [? _].
Qed.

(** X13: services do not influence one another: an alert is in the result
    of a run exactly when the detector returns it on the records of the
    alert's own service. *)
Theorem X13_services_are_analysed_independently heartbeats config alerts alert :
  analyseAllHeartbeats heartbeats config = Normal alerts ->
  alert ∈ alerts
  <-> analyseServiceHeartbeats (records_of (alert_service alert) heartbeats) config
      = Normal (Some alert).
Proof.
  rewrite analyseAll_gather. intros Hg.
  rewrite (gather_elem_of _ _ alert Hg), list_elem_of_fmap. split.
  - intros (k & Ha & _). symmetry in Ha.
    by destruct (analyse_records_of _ _ _ _ Ha) as [-> _].
  - intros Ha. exists (alert_service alert). split; [done|].
    destruct (analyse_records_of _ _ _ _ Ha) as (_ & r & Hr & Hsvc & _).
    apply group_keys, list_elem_of_fmap. by exists r.
Qed.

Lemma gather_Throws results :
  gather results = Throws RangeError <-> Throws RangeError ∈ results.
Proof.
  induction results as [|r results IH]; simpl.
  - split; [done|]. intros H. by apply elem_of_nil in H.
  - rewrite elem_of_cons. destruct r as [o|[]]; simpl; [|by split; [left|]].
    destruct (gather results) as [alerts|[]]; simpl.
    + split; [done|]. intros [?|H]; [done|]. by apply IH in H.
    + split; [|done]. intros _. right. by apply IH.
Qed.

(** X14: a run has no partial result: it throws exactly when the detector
    throws on the records of some service of the input. *)
Theorem X14_run_throws_iff_some_service_throws heartbeats config :
  analyseAllHeartbeats heartbeats config = Throws RangeError
  <-> exists k, k ∈ service <$> heartbeats
        /\ analyseServiceHeartbeats (records_of k heartbeats) config = Throws RangeError.
Proof.
  rewrite analyseAll_gather, gather_Throws, list_elem_of_fmap.
  split; intros (k & Hk & Hin); exists k.
  - split; [by apply group_keys|done].
  - split; [done|by apply group_keys].
Qed.

Lemma gather_app results1 results2 :
  gather (results1 ++ results2)
  = (let* alerts1 := gather results1 in
     let* alerts2 := gather results2 in
     Normal (alerts1 ++ alerts2)).
Proof.
  induction results1 as [|r results1 IH]; simpl.
  - by destruct (gather results2).
  - destruct r as [o|e]; simpl; [|done]. rewrite IH.
    destruct (gather results1) as [a1|e1]; simpl; [|done].
    destruct (gather results2) as [a2|e2]; simpl; [|done].
    by rewrite (assoc_L (++)).
Qed.

Lemma first_occurrences_app_disjoint l1 l2 :
  (forall x, x ∈ l1 -> x ∉ l2) ->
  first_occurrences (l1 ++ l2) = first_occurrences l1 ++ first_occurrences l2.
Proof.
  intros Hdisjoint. induction l2 as [|x l2 IH] using rev_ind.
  - by rewrite !app_nil_r.
  - rewrite (assoc_L (++)), !first_occurrences_snoc.
    assert (Hl2 : forall y, y ∈ l1 -> y ∉ l2).
    { intros y Hy Hin. apply (Hdisjoint y Hy). apply elem_of_app. by left. }
    rewrite IH by done.
    assert (Hx : x ∉ l1).
    { intros Hin. apply (Hdisjoint x Hin). apply elem_of_app. right. by left. }
    destruct (decide (x ∈ l2)) as [Hin|Hout].
    + rewrite decide_True; [done|]. apply elem_of_app. by right.
    + rewrite decide_False; [by rewrite (assoc_L (++))|].
      rewrite elem_of_app. by intros [?|?].
Qed.

(** X15: batches that share no service can be analysed apart: the run on
    one followed by the other gives the alerts of the first followed by the
    alerts of the second, or the first exception. *)
Theorem X15_run_on_batches_without_common_service heartbeats1 heartbeats2 config :
  (forall r1 r2, r1 ∈ heartbeats1 -> r2 ∈ heartbeats2 -> service r1 <> service r2) ->
  analyseAllHeartbeats (heartbeats1 ++ heartbeats2) config
  = (let* alerts1 := analyseAllHeartbeats heartbeats1 config in
     let* alerts2 := analyseAllHeartbeats heartbeats2 config in
     Normal (alerts1 ++ alerts2)).
Proof.
  intros Hdisjoint.
  assert (Hkeys : forall k, k ∈ service <$> heartbeats1 -> k ∉ service <$> heartbeats2).
  { intros k (r1 & -> & H1)%list_elem_of_fmap (r2 & Heq & H2)%list_elem_of_fmap.
    by apply (Hdisjoint r1 r2). }
  rewrite !analyseAll_gather, !group_keys_first_occurrences.
  rewrite fmap_app, first_occurrences_app_disjoint, fmap_app by done.
  rewrite (list_fmap_ext
             (fun k => analyseServiceHeartbeats (records_of k (heartbeats1 ++ heartbeats2)) config)
             (fun k => analyseServiceHeartbeats (records_of k heartbeats1) config)
             (first_occurrences (service <$> heartbeats1))).
  2: { intros i k Hk%list_elem_of_lookup_2.
       apply (proj1 (elem_of_first_occurrences _ _)) in Hk.
       unfold records_of. rewrite filter_app.
       fold (records_of k heartbeats2). rewrite (records_of_absent k heartbeats2) by by apply Hkeys.
       by rewrite app_nil_r. }
  rewrite (list_fmap_ext
             (fun k => analyseServiceHeartbeats (records_of k (heartbeats1 ++ heartbeats2)) config)
             (fun k => analyseServiceHeartbeats (records_of k heartbeats2) config)
             (first_occurrences (service <$> heartbeats2))).
  2: { intros i k Hk%list_elem_of_lookup_2.
       apply (proj1 (elem_of_first_occurrences _ _)) in Hk.
       unfold records_of. rewrite filter_app.
       fold (records_of k heartbeats1). rewrite (records_of_absent k heartbeats1); [done|].
       intros Hin. by apply (Hkeys k). }
  apply gather_app.
Qed.

(** ** The entry point, further *)

(** The batch operation on a permutation of the records. *)
Lemma analyseAll_Permutation heartbeats heartbeats2 config :
  heartbeats ≡ₚ heartbeats2 ->
  same_alert_set (analyseAllHeartbeats heartbeats config)
                 (analyseAllHeartbeats heartbeats2 config).
Proof.
  intros Hp. rewrite !analyseAll_gather.
  apply gather_Permutation.
  rewrite <- (group_keys_Permutation _ _ Hp).
  erewrite (list_fmap_ext _
    (fun k => analyseServiceHeartbeats (records_of k heartbeats2) config)); [done|].
  intros _ k _.
  apply (analyse_Permutation k); [apply records_of_single_service|].
  by apply records_of_Permutation.
Qed.


Section EntryPointMore.
Variable Date_parse : jsstring -> option Z.

(** X16: an event the validator drops has no effect on the result, wherever
    it stands among the events. *)
Theorem X16_dropped_event_changes_nothing events1 events2 event config :
  parseEvent Date_parse event = None ->
  detectMissedHeartbeats Date_parse (events1 ++ event :: events2) config
  = detectMissedHeartbeats Date_parse (events1 ++ events2) config.
Proof.
  intros Hnone. unfold detectMissedHeartbeats. rewrite !validate_spec. simpl.
  rewrite !omap_app. csimpl. by rewrite Hnone.
Qed.

(** X17: when the validator drops every event, the run returns no alert and
    does not throw, whatever the configuration, and the invalid count is the
    number of events. *)
Theorem X17_only_dropped_events_give_no_alert events config :
  Forall (fun event => parseEvent Date_parse event = None) events ->
  detectMissedHeartbeats Date_parse events config = Normal []
  /\ valid (validateAndParseEvents Date_parse events) = []
  /\ invalid (validateAndParseEvents Date_parse events) = length events.
Proof.
  intros Hall. unfold detectMissedHeartbeats. rewrite validate_spec. simpl.
  assert (omap (parseEvent Date_parse) events = []) as ->.
  { induction Hall as [|event events Hnone _ IH]; csimpl; [done|]. by rewrite Hnone. }
  repeat split.
  induction Hall as [|event events Hnone _ IH]; [done|].
  rewrite filter_cons_True by done. simpl. by rewrite IH.
Qed.

(** X18: the order of the raw events does not matter to the entry point:
    on a permutation of the events the run ends with the same alerts, up to
    their order, or with the same exception. *)
Theorem X18_event_order_is_immaterial events events2 config :
  events ≡ₚ events2 ->
  same_alert_set (detectMissedHeartbeats Date_parse events config)
                 (detectMissedHeartbeats Date_parse events2 config).
Proof.
  intros Hp. unfold detectMissedHeartbeats. rewrite !validate_spec. simpl.
  apply analyseAll_Permutation. by rewrite Hp.
Qed.


End EntryPointMore.

(** ** Examples of the output *)

Example formatAlerts_none : formatAlerts [] = str "No alerts detected".
Proof. reflexivity. Qed.

Example formatAlerts_two :
  formatAlerts
    [{| alert_service := str "email"; alert_at := str "2025-08-04T10:03:00.000Z" |};
     {| alert_service := str "push"; alert_at := str "2025-08-04T10:01:00.000Z" |}]
  = str "Found 2 alert(s):" ++ LF
    ++ str " Service: email -> Alert at: 2025-08-04T10:03:00.000Z" ++ LF
    ++ str " Service: push -> Alert at: 2025-08-04T10:01:00.000Z".
Proof. vm_compute. reflexivity. Qed.

Example Number_toString_1234 : Number_toString 1234 = str "1234".
Proof. vm_compute. reflexivity. Qed.

Example Number_toString_0 : Number_toString 0 = str "0".
Proof. vm_compute. reflexivity. Qed.

Example QuoteJSONString_escapes :
  QuoteJSONString [9; 34; 92; 1; 127; 55357; 56832; 56832; 233]%N
  = [34%N] ++ str "\t" ++ [92; 34]%N ++ str "\\\u0001" ++ [127; 55357; 56832]%N
    ++ str "\ude00" ++ [233; 34]%N.
Proof. vm_compute. reflexivity. Qed.

Example formatAlertsAsJson_none : formatAlertsAsJson [] = str "[]".
Proof. reflexivity. Qed.

Example formatAlertsAsJson_one :
  formatAlertsAsJson
    [{| alert_service := str "email"; alert_at := str "2025-08-04T10:03:00.000Z" |}]
  = str "[" ++ LF
    ++ str "  {" ++ LF
    ++ str "    " ++ quoted "service" ++ str ": " ++ quoted "email" ++ str "," ++ LF
    ++ str "    " ++ quoted "alert_at" ++ str ": " ++ quoted "2025-08-04T10:03:00.000Z" ++ LF
    ++ str "  }" ++ LF
    ++ str "]".
Proof. vm_compute. reflexivity. Qed.

Example logValidationStats_4_3 :
  logValidationStats 4 3
  = [LF ++ str " Validation Statistics:"; str " Valid events: 4";
     str "Invalid events (skipped): 3"; str " Total events: 7"].
Proof. vm_compute. reflexivity. Qed.

(** ** The report *)

Lemma formatAlerts_cons alert alerts :
  formatAlerts (alert :: alerts)
  = str "Found " ++ Number_toString (Z.of_nat (length (alert :: alerts)))
      ++ str " alert(s):" ++ LF ++ join LF (map alert_line (alert :: alerts)).
Proof. done. Qed.

(** X20: the text [No alerts detected] is the report of the empty list and of
    no other list. *)
Theorem X20_report_says_none_only_for_no_alert alerts :
  formatAlerts alerts = str "No alerts detected" <-> alerts = [].
Proof.
  split; [|by intros ->].
  destruct alerts as [|alert alerts]; [done|].
  rewrite formatAlerts_cons. intros H.
  apply (f_equal (take 4)) in H. vm_compute in H. discriminate.
Qed.

Lemma digit_not_LF n : digit n <> 10%N.
Proof. unfold digit. lia. Qed.

Lemma decimal_no_LF fuel n : 10%N ∉ decimal fuel n.
Proof.
  revert n. induction fuel as [|fuel IH]; intros n; simpl; [apply not_elem_of_nil|].
  destruct (n <? 10).
  - rewrite list_elem_of_singleton. intros H. by apply (digit_not_LF n).
  - rewrite elem_of_app, list_elem_of_singleton.
    intros [H|H]; [by apply (IH (n / 10))|by apply (digit_not_LF n)].
Qed.

Lemma Number_toString_no_LF n : 10%N ∉ Number_toString n.
Proof.
  unfold Number_toString. destruct (n <? 0); [|apply decimal_no_LF].
  rewrite elem_of_app. intros [H|H]; [|by apply decimal_no_LF in H].
  revert H. compute_done.
Qed.

Lemma count_LF_free (s : jsstring) :
  10%N ∉ s -> filter (fun c => c = 10%N) s = [].
Proof.
  induction s as [|c s IH]; [done|].
  rewrite not_elem_of_cons. intros [Hc Hs].
  rewrite filter_cons_False by done. by apply IH.
Qed.

Lemma count_LF_join lines :
  Forall (fun line => 10%N ∉ line) lines ->
  length (filter (fun c => c = 10%N) (join LF lines)) = (length lines - 1)%nat.
Proof.
  induction 1 as [|line lines Hline Hlines IH]; [done|].
  cbn [join]. destruct lines as [|line2 lines].
  - by rewrite count_LF_free.
  - rewrite !filter_app, !length_app, IH, count_LF_free by done.
    simpl. lia.
Qed.

(** X21: the report has one line break for each alert, so one line more
    than there are alerts, when no service and no [alert_at] holds a line
    feed. *)
Theorem X21_report_has_a_line_for_each_alert alerts :
  Forall (fun a => (10%N ∉ alert_service a) /\ (10%N ∉ alert_at a)) alerts ->
  length (filter (fun c => c = 10%N) (formatAlerts alerts)) = length alerts.
Proof.
  intros Hfree. destruct alerts as [|alert alerts]; [done|].
  rewrite formatAlerts_cons.
  rewrite !filter_app, !length_app, count_LF_join.
  - rewrite (count_LF_free (Number_toString _)) by apply Number_toString_no_LF.
    rewrite length_map. simpl. lia.
  - apply Forall_fmap. eapply Forall_impl; [exact Hfree|].
    intros a [Hs Ha]. unfold compose, alert_line.
    rewrite !elem_of_app. intros [H|[H|[H|H]]]; try done.
    + revert H. compute_done.
    + revert H. compute_done.
Qed.

(** ** The program *)

Lemma main_config_well_formed : well_formed_config main_config.
Proof. split; simpl; lia. Qed.

Lemma main_analysis_normal Date_parse events :
  exists alerts,
    analyseAllHeartbeats (valid (validateAndParseEvents Date_parse events)) main_config
    = Normal alerts.
Proof.
  apply analyseAll_normal;
    [apply validate_valid_records|apply main_config_well_formed|by vm_compute].
Qed.

(** [main] on an array: the analysis returns, and the texts logged are
    the header, the statistics and the report. *)
Lemma main_on_array Date_parse events :
  let result := validateAndParseEvents Date_parse events in
  let stats := logValidationStats (length (valid result)) (invalid result) in
  exists alerts,
    analyseAllHeartbeats (valid result) main_config = Normal alerts
    /\ main Date_parse (Some (JsArray events))
       = {| logged := main_header ++ stats
                      ++ (if (length alerts =? 0)%nat then [str "No error found."]
                          else [formatAlerts alerts; LF ++ formatAlertsAsJson alerts]);
            exit_status := None |}.
Proof.
  simpl. destruct (main_analysis_normal Date_parse events) as [alerts Hrun].
  exists alerts. split; [done|]. unfold main. rewrite Hrun.
  by destruct ((length alerts =? 0)%nat).
Qed.

(** X22: [main] ends with [process.exit(1)] exactly when the input file
    cannot be read or parsed or does not hold an array; on an array it
    returns without calling [process.exit], whatever the events are: the
    analysis does not throw under the configuration of [main]. *)
Theorem X22_main_fails_iff_input_is_no_array Date_parse file :
  (exit_status (main Date_parse file) = Some 1
   <-> forall events, file <> Some (JsArray events))
  /\ (exit_status (main Date_parse file) = None
      <-> exists events, file = Some (JsArray events)).
Proof.
  destruct file as [[| | | | |events|props]|];
    try (split; split; [done|done|done|by intros [? ?]]).
  destruct (main_on_array Date_parse events) as (alerts & _ & ->). simpl.
  split; split; [done| |by eexists|done].
  intros H. by destruct (H events).
Qed.

Ltac texts_differ H :=
  apply (f_equal (take 4)) in H; vm_compute in H; discriminate H.

(** X23: on an array [main] logs, after its header, the four texts of the
    statistics: the number of valid records, the number of events dropped,
    and as their total the number of elements of the array. *)
Theorem X23_main_reports_the_counts Date_parse events :
  let result := validateAndParseEvents Date_parse events in
  exists report,
    logged (main Date_parse (Some (JsArray events)))
    = main_header
      ++ [LF ++ str " Validation Statistics:";
          str " Valid events: " ++ Number_toString (Z.of_nat (length (valid result)));
          str "Invalid events (skipped): " ++ Number_toString (Z.of_nat (invalid result));
          str " Total events: " ++ Number_toString (Z.of_nat (length events))]
      ++ report.
Proof.
  cbv zeta. destruct (main_on_array Date_parse events) as (alerts & _ & ->). simpl.
  eexists. unfold logValidationStats.
  rewrite validate_spec. simpl. rewrite omap_filter_length. reflexivity.
Qed.

(** X24: [main] words the absence of alerts itself.  On an array it logs
    [No error found.] exactly when the analysis returns no alert, and the
    text [formatAlerts] has for an empty list is never logged, whatever the
    input file. *)
Theorem X24_main_words_the_absence_of_alerts Date_parse file :
  (str "No alerts detected" ∉ logged (main Date_parse file))
  /\ (forall events, file = Some (JsArray events) ->
        str "No error found." ∈ logged (main Date_parse file)
        <-> analyseAllHeartbeats (valid (validateAndParseEvents Date_parse events))
              main_config = Normal []).
Proof.
  destruct file as [[| | | | |events|props]|].
  1-5, 7-8: by split; [compute_done|intros ? [=]].
  destruct (main_on_array Date_parse events) as (alerts & Hrun & ->). cbn [logged].
  split.
  - rewrite !elem_of_app. intros [H|[H|H]].
    + revert H. compute_done.
    + unfold logValidationStats in H.
      repeat (apply elem_of_cons in H as [H|H]; [texts_differ H|]).
      by apply elem_of_nil in H.
    + destruct alerts as [|alert alerts]; cbn [length Nat.eqb] in H.
      * revert H. compute_done.
      * rewrite formatAlerts_cons in H.
        repeat (apply elem_of_cons in H as [H|H]; [texts_differ H|]).
        by apply elem_of_nil in H.
  - intros events' [= <-]. rewrite Hrun. split.
    + rewrite !elem_of_app. intros [H|[H|H]].
      * exfalso. revert H. compute_done.
      * exfalso. unfold logValidationStats in H.
        repeat (apply elem_of_cons in H as [H|H]; [texts_differ H|]).
        by apply elem_of_nil in H.
      * destruct alerts as [|alert alerts]; [done|]. exfalso. cbn [length Nat.eqb] in H.
        rewrite formatAlerts_cons in H.
        repeat (apply elem_of_cons in H as [H|H]; [texts_differ H|]).
        by apply elem_of_nil in H.
    + intros [= ->]. rewrite !elem_of_app. right. right. apply list_elem_of_here.
Qed.
(** ** The JSON text *)

Lemma hex_value_digit d : (d < 16)%N -> hex_value (hex_digit d) = Some d.
Proof.
  intros Hd. unfold hex_value, hex_digit.
  destruct (N.ltb_spec d 10).
  - replace ((48 <=? 48 + d) && (48 + d <=? 57))%N with true
      by (symmetry; apply andb_true_iff; split; apply N.leb_le; lia).
    f_equal. lia.
  - replace ((48 <=? 87 + d) && (87 + d <=? 57))%N with false
      by (symmetry; apply andb_false_iff; right; apply N.leb_gt; lia).
    replace ((97 <=? 87 + d) && (87 + d <=? 102))%N with true
      by (symmetry; apply andb_true_iff; split; apply N.leb_le; lia).
    f_equal. lia.
Qed.

Lemma read_UnicodeEscape c tail :
  (c < 65536)%N ->
  read_json_chars (UnicodeEscape c ++ tail) = read_more c (read_json_chars tail).
Proof.
  intros Hc. unfold UnicodeEscape. cbn [app read_json_chars].
  replace (92 =? 34)%N with false by done. replace (92 =? 92)%N with true by done.
  replace (117 =? 117)%N with true by done.
  rewrite !hex_value_digit by (apply N.mod_lt; lia).
  f_equal.
  pose proof (N.div_mod c 4096). pose proof (N.mod_lt c 4096).
  pose proof (N.div_mod c 256). pose proof (N.mod_lt c 256).
  pose proof (N.div_mod c 16). pose proof (N.mod_lt c 16).
  assert (c / 4096 < 16)%N by (apply N.Div0.div_lt_upper_bound; lia).
  rewrite (N.mod_small (c / 4096) 16) by done.
  apply N2Z.inj. rewrite !N2Z.inj_add, !N2Z.inj_mul, !N2Z.inj_mod, !N2Z.inj_div.
  assert (0 <= Z.of_N c < 65536) by lia. simpl Z.of_N.
  Z.div_mod_to_equations. lia.
Qed.

Lemma read_literal c tail :
  c <> 34%N -> c <> 92%N ->
  read_json_chars (c :: tail) = read_more c (read_json_chars tail).
Proof.
  intros H34 H92. cbn [read_json_chars].
  by rewrite (proj2 (N.eqb_neq c 34)), (proj2 (N.eqb_neq c 92)).
Qed.

Lemma read_quote_code_unit c tail :
  read_json_chars (quote_code_unit c ++ tail) = read_more c (read_json_chars tail).
Proof.
  unfold quote_code_unit.
  destruct (N.eqb_spec c 8) as [->|?]; [done|].
  destruct (N.eqb_spec c 9) as [->|?]; [done|].
  destruct (N.eqb_spec c 10) as [->|?]; [done|].
  destruct (N.eqb_spec c 12) as [->|?]; [done|].
  destruct (N.eqb_spec c 13) as [->|?]; [done|].
  destruct (N.eqb_spec c 34) as [->|?]; [done|].
  destruct (N.eqb_spec c 92) as [->|?]; [done|].
  destruct (N.ltb_spec c 32).
  - apply read_UnicodeEscape. lia.
  - by apply read_literal.
Qed.

Lemma surrogate_bounds c :
  is_leading_surrogate c || is_trailing_surrogate c = true ->
  (c < 65536)%N /\ c <> 34%N /\ c <> 92%N.
Proof.
  unfold is_leading_surrogate, is_trailing_surrogate.
  rewrite orb_true_iff, !andb_true_iff, !N.leb_le. lia.
Qed.

(** Reading what [QuoteJSONString] writes after the opening quote gives the
    text back, and stops behind the closing quote. *)
Lemma read_quote_code_points s tail :
  read_json_chars (quote_code_points s ++ 34%N :: tail) = Some (s, tail).
Proof.
  remember (length s) as n eqn:Hn. revert s Hn.
  induction n as [n IH] using lt_wf_ind. intros s ->.
  destruct s as [|c rest]; [done|]. cbn [quote_code_points].
  destruct (is_leading_surrogate c) eqn:Hlead.
  - destruct (surrogate_bounds c) as (Hc & H34 & H92); [by rewrite Hlead|].
    destruct rest as [|d rest2].
    + rewrite read_UnicodeEscape by done. done.
    + destruct (is_trailing_surrogate d) eqn:Htrail.
      * destruct (surrogate_bounds d) as (Hd & H34d & H92d);
          [by rewrite Htrail, orb_true_r|].
        cbn [app]. rewrite !read_literal by done.
        by rewrite (IH (length rest2)) by (simpl; lia || done).
      * rewrite <- (assoc_L (++)), read_UnicodeEscape by done.
        by rewrite (IH (length (d :: rest2))) by (simpl; lia || done).
  - destruct (is_trailing_surrogate c) eqn:Htrail.
    + destruct (surrogate_bounds c) as (Hc & H34 & H92);
        [by rewrite Htrail, orb_true_r|].
      rewrite <- (assoc_L (++)), read_UnicodeEscape by done.
      by rewrite (IH (length rest)) by (simpl; lia || done).
    + rewrite <- (assoc_L (++)), read_quote_code_unit.
      by rewrite (IH (length rest)) by (simpl; lia || done).
Qed.

(** A quoted text is read off the front of what it is followed by. *)
Lemma QuoteJSONString_inj s1 s2 tail1 tail2 :
  QuoteJSONString s1 ++ tail1 = QuoteJSONString s2 ++ tail2 -> s1 = s2 /\ tail1 = tail2.
Proof.
  unfold QuoteJSONString. rewrite <- !(assoc_L (++)). cbn [app].
  intros [= Heq]. apply (f_equal read_json_chars) in Heq.
  rewrite !read_quote_code_points in Heq. by injection Heq.
Qed.

Lemma json_alert_inj a1 a2 tail1 tail2 :
  json_alert a1 ++ tail1 = json_alert a2 ++ tail2 -> a1 = a2 /\ tail1 = tail2.
Proof.
  unfold json_alert. rewrite <- !(assoc_L (++)). intros Heq.
  do 5 apply app_inv_head in Heq.
  apply QuoteJSONString_inj in Heq as [Hsvc Heq].
  do 5 apply app_inv_head in Heq.
  apply QuoteJSONString_inj in Heq as [Hat Heq].
  do 3 apply app_inv_head in Heq.
  destruct a1, a2; simpl in *. by subst.
Qed.

Lemma join_json_alerts_inj alerts1 alerts2 :
  alerts1 <> [] -> alerts2 <> [] ->
  join (str "," ++ LF ++ str "  ") (map json_alert alerts1) ++ LF ++ str "]"
  = join (str "," ++ LF ++ str "  ") (map json_alert alerts2) ++ LF ++ str "]" ->
  alerts1 = alerts2.
Proof.
  revert alerts2. induction alerts1 as [|a1 rest1 IH]; intros alerts2 H1 H2; [done|].
  destruct alerts2 as [|a2 rest2]; [done|].
  cbn [map join].
  destruct rest1 as [|b1 rest1], rest2 as [|b2 rest2]; cbn [map].
  - intros [-> _]%json_alert_inj. done.
  - rewrite <- !(assoc_L (++)). intros [_ Heq]%json_alert_inj. discriminate Heq.
  - rewrite <- !(assoc_L (++)). intros [_ Heq]%json_alert_inj. discriminate Heq.
  - rewrite <- !(assoc_L (++)). intros [-> Heq]%json_alert_inj.
    do 3 apply app_inv_head in Heq.
    f_equal. apply IH; [done|done|]. exact Heq.
Qed.

(** X25: the JSON text loses nothing: two lists of alerts with the same
    JSON text are the same list, whatever code units, quotes, backslashes,
    control characters or surrogates their fields hold. *)
Theorem X25_json_text_determines_the_alerts alerts1 alerts2 :
  formatAlertsAsJson alerts1 = formatAlertsAsJson alerts2 -> alerts1 = alerts2.
Proof.
  destruct alerts1 as [|a1 rest1], alerts2 as [|a2 rest2]; [done|..].
  - intros H. apply (f_equal (take 2)) in H. vm_compute in H. discriminate H.
  - intros H. apply (f_equal (take 2)) in H. vm_compute in H. discriminate H.
  - unfold formatAlertsAsJson. intros Heq.
    do 3 apply app_inv_head in Heq.
    by apply join_json_alerts_inj in Heq.
Qed.

(** X26: a service alerts on two records at least: every alert of a run is
    for a service with two or more records in the input. *)
Theorem X26_alert_needs_two_records heartbeats config alerts alert :
  analyseAllHeartbeats heartbeats config = Normal alerts ->
  alert ∈ alerts ->
  (2 <= length (records_of (alert_service alert) heartbeats))%nat.
Proof.
  rewrite analyseAll_gather. intros Hg Ha.
  apply (gather_elem_of _ _ alert Hg) in Ha.
  apply list_elem_of_fmap in Ha as (k & Ha & _). symmetry in Ha.
  destruct (analyse_records_of _ _ _ _ Ha) as [-> _].
  destruct (Nat.lt_ge_cases (length (records_of k heartbeats)) 2) as [Hshort|]; [|done].
  by rewrite analyse_short in Ha.
Qed.

(** ** The further theorems at inputs of the test suites *)

Lemma X2_spaced_service_witness :
  exists pre post,
    str "  email  " = pre ++ service (beat "email" 10 0) ++ post
    /\ all_white_space pre /\ all_white_space post
    /\ (exists c, head (service (beat "email" 10 0)) = Some c /\ is_white_space c = false)
    /\ (exists c, last (service (beat "email" 10 0)) = Some c /\ is_white_space c = false).
Proof.
  apply (X2_parsed_service_is_raw_service_trimmed parse_iso_utc event_spaced).
  - reflexivity.
  - vm_compute. reflexivity.
Defined.

Lemma X3_more_properties_witness :
  parseEvent parse_iso_utc (JsObject event_spaced)
  = parseEvent parse_iso_utc (JsObject event_with_more).
Proof.
  apply (X3_other_properties_are_ignored parse_iso_utc event_spaced event_with_more).
  - reflexivity.
  - reflexivity.
Defined.

Lemma X4_spaced_and_plain_witness :
  parseEvent parse_iso_utc (JsObject event_spaced)
  = parseEvent parse_iso_utc (JsObject event_plain).
Proof.
  apply (X4_surrounding_white_space_is_immaterial parse_iso_utc event_spaced event_plain
           (str "  email  ") (str "email")).
  - reflexivity.
  - reflexivity.
  - reflexivity.
  - reflexivity.
Defined.

Lemma X6_more_misses_witness :
  analyseServiceHeartbeats [beat "sms" 10 0; beat "sms" 10 3] config_60_5 = Normal None.
Proof.
  apply (X6_no_alert_under_larger_threshold [beat "sms" 10 0; beat "sms" 10 3]
           config_60_3 config_60_5).
  - vm_compute. discriminate.
  - vm_compute. reflexivity.
Defined.

Lemma X7_email_gap_witness :
  exists i current next,
    array_sort by_timestamp beats_email !! i = Some current
    /\ array_sort by_timestamp beats_email !! S i = Some next
    /\ alert_service alert_email = service current
    /\ denotes_instant (alert_at alert_email)
         (timestamp current + expected_interval_seconds config_60_3 * 1000)
    /\ timestamp current
       < timestamp current + expected_interval_seconds config_60_3 * 1000
       <= timestamp next.
Proof.
  apply (X7_alert_instant_lies_in_the_gap beats_email config_60_3 alert_email).
  - exact config_60_3_well_formed.
  - exact config_60_3_threshold.
  - vm_compute. reflexivity.
Defined.

Lemma X8_no_miss_allowed_witness :
  exists earliest,
    array_sort by_timestamp [beat "sms" 10 1; beat "sms" 10 0] !! 0%nat = Some earliest
    /\ (forall r, r ∈ [beat "sms" 10 1; beat "sms" 10 0] ->
          timestamp earliest <= timestamp r)
    /\ analyseServiceHeartbeats [beat "sms" 10 1; beat "sms" 10 0] config_no_miss_allowed
       = (let* alert := make_alert earliest config_no_miss_allowed in Normal (Some alert)).
Proof.
  apply (X8_non_positive_threshold_stops_at_first_pair
           [beat "sms" 10 1; beat "sms" 10 0] config_no_miss_allowed).
  - vm_compute. discriminate.
  - simpl. lia.
Defined.

Lemma X10_repeated_beat_witness :
  analyseServiceHeartbeats
    [beat "email" 10 0; beat "email" 10 5; beat "email" 10 5] config_60_3
  = analyseServiceHeartbeats [beat "email" 10 0; beat "email" 10 5] config_60_3.
Proof.
  apply (X10_duplicate_heartbeat_is_harmless (str "email")
           [beat "email" 10 0; beat "email" 10 5]
           [beat "email" 10 0; beat "email" 10 5; beat "email" 10 5]
           (beat "email" 10 5) config_60_3).
  - vm_compute. reflexivity.
  - repeat constructor.
  - apply list_elem_of_further, list_elem_of_here.
  - apply Permutation_swap.
Defined.

Lemma X12_email_then_push_witness :
  alert_service <$> [alert_email; alert_push]
  `sublist_of` first_occurrences (service <$> beats_email ++ beats_push).
Proof.
  apply (X12_alerts_in_order_of_first_appearance (beats_email ++ beats_push) config_60_3
           [alert_email; alert_push]).
  vm_compute. reflexivity.
Defined.

Lemma X13_email_alone_witness :
  alert_email ∈ [alert_email; alert_push]
  <-> analyseServiceHeartbeats
        (records_of (alert_service alert_email) (beats_email ++ beats_push)) config_60_3
      = Normal (Some alert_email).
Proof.
  apply (X13_services_are_analysed_independently (beats_email ++ beats_push) config_60_3
           [alert_email; alert_push] alert_email).
  vm_compute. reflexivity.
Defined.

Lemma X15_email_and_push_witness :
  analyseAllHeartbeats (beats_email ++ beats_push) config_60_3
  = (let* alerts1 := analyseAllHeartbeats beats_email config_60_3 in
     let* alerts2 := analyseAllHeartbeats beats_push config_60_3 in
     Normal (alerts1 ++ alerts2)).
Proof.
  apply (X15_run_on_batches_without_common_service beats_email beats_push config_60_3).
  intros r1 r2 H1 H2.
  apply (Forall_forall (fun r => service r = str "email") beats_email) in H1;
    [|repeat constructor].
  apply (Forall_forall (fun r => service r = str "push") beats_push) in H2;
    [|repeat constructor].
  rewrite H1, H2. vm_compute. discriminate.
Defined.

Lemma X16_event_without_timestamp_witness :
  detectMissedHeartbeats parse_iso_utc events_with_malformed config_60_3
  = detectMissedHeartbeats parse_iso_utc (tail events_with_malformed) config_60_3.
Proof.
  apply (X16_dropped_event_changes_nothing parse_iso_utc [] (tail events_with_malformed)
           (JsObject [(str "service", JsString (str "email"))]) config_60_3).
  vm_compute. reflexivity.
Defined.

Lemma X17_no_record_witness :
  detectMissedHeartbeats parse_iso_utc
    [JsNull; JsString (str "string"); event "email" "invalid-date"] config_60_3
  = Normal []
  /\ valid (validateAndParseEvents parse_iso_utc
              [JsNull; JsString (str "string"); event "email" "invalid-date"]) = []
  /\ invalid (validateAndParseEvents parse_iso_utc
                [JsNull; JsString (str "string"); event "email" "invalid-date"])
     = length [JsNull; JsString (str "string"); event "email" "invalid-date"].
Proof.
  apply (X17_only_dropped_events_give_no_alert parse_iso_utc
           [JsNull; JsString (str "string"); event "email" "invalid-date"] config_60_3).
  repeat constructor.
Defined.

Lemma X18_swapped_events_witness :
  same_alert_set
    (detectMissedHeartbeats parse_iso_utc
       [event "email" "2025-08-04T10:05:00Z"; event "email" "2025-08-04T10:00:00Z"]
       config_60_3)
    (detectMissedHeartbeats parse_iso_utc
       [event "email" "2025-08-04T10:00:00Z"; event "email" "2025-08-04T10:05:00Z"]
       config_60_3).
Proof.
  apply (X18_event_order_is_immaterial parse_iso_utc
           [event "email" "2025-08-04T10:05:00Z"; event "email" "2025-08-04T10:00:00Z"]
           [event "email" "2025-08-04T10:00:00Z"; event "email" "2025-08-04T10:05:00Z"]
           config_60_3).
  apply Permutation_swap.
Defined.


Lemma X21_two_alerts_witness :
  length (filter (fun c => c = 10%N) (formatAlerts [alert_email; alert_push]))
  = length [alert_email; alert_push].
Proof.
  apply (X21_report_has_a_line_for_each_alert [alert_email; alert_push]).
  repeat constructor; compute_done.
Defined.

Lemma X25_same_text_witness : [alert_email; alert_push] = [alert_email; alert_push].
Proof.
  apply (X25_json_text_determines_the_alerts [alert_email; alert_push]
           [alert_email; alert_push]).
  reflexivity.
Defined.

Lemma X26_email_has_four_records_witness :
  (2 <= length (records_of (alert_service alert_email) (beats_email ++ beats_push)))%nat.
Proof.
  apply (X26_alert_needs_two_records (beats_email ++ beats_push) config_60_3
           [alert_email; alert_push] alert_email).
  - vm_compute. reflexivity.
  - apply list_elem_of_here.
Defined.
